(** * Map WEDO: the place ranking and filtering pipeline

    A shallow embedding of the client page of the repository
    ([src/unnamed/part_000], the current page, and [src/app/page.tsx], its
    earlier variant) and the properties of its pipeline: coordinate
    parsing, distance annotation, category / search / tag filters, the
    distance sort, pagination, tag vocabulary extraction, the page state
    transitions and the per-card derived views.

    Modelling conventions.
    - A JavaScript [number] is [NaN], a signed [Infinity], or a finite value
      held as the rational it denotes.  Rounding to binary64 and the sign of
      zero are modelled in [Binary64] only, where the distance formula is
      run on doubles.
    - A JavaScript string is a [string] of 8-bit characters; [toLowerCase]
      folds the ASCII letters.
    - [Array.prototype.sort] is the engine's ([SortEngine]); what is
      assumed of it is what ECMAScript requires of every engine.
    - The [Math] object is an interface ([MathLib]); the distance formula is
      written over it. *)

From stdpp Require Import base gmap.
From Stdlib Require Import List String Ascii ZArith QArith Bool Lia Lqa.
From Stdlib Require Import Sorting.Sorted Sorting.Permutation Qround.
From Stdlib Require Floats.PrimFloat Floats.FloatOps Floats.SpecFloat.
Import ListNotations.

Local Close Scope Q_scope.
Local Open Scope string_scope.
Local Open Scope list_scope.

(** ** Numbers *)

Inductive number : Type :=
| NaN
| Infinity (negative : bool)
| Fin (q : Q).

Definition Qlt_bool (a b : Q) : bool := negb (Qle_bool b a).

Definition is_zero (q : Q) : bool := Qeq_bool q 0.

Definition num_neg (a : number) : number :=
  match a with
  | NaN => NaN
  | Infinity s => Infinity (negb s)
  | Fin q => Fin (Qred (- q))
  end.

Definition num_add (a b : number) : number :=
  match a, b with
  | NaN, _ | _, NaN => NaN
  | Infinity s, Infinity t => if Bool.eqb s t then Infinity s else NaN
  | Infinity s, Fin _ | Fin _, Infinity s => Infinity s
  | Fin x, Fin y => Fin (Qred (x + y))
  end.

Definition num_sub (a b : number) : number := num_add a (num_neg b).

Definition num_mul (a b : number) : number :=
  match a, b with
  | NaN, _ | _, NaN => NaN
  | Infinity s, Infinity t => Infinity (xorb s t)
  | Infinity s, Fin q | Fin q, Infinity s =>
      if is_zero q then NaN else Infinity (xorb s (Qlt_bool q 0))
  | Fin x, Fin y => Fin (Qred (x * y))
  end.

Definition num_div (a b : number) : number :=
  match a, b with
  | NaN, _ | _, NaN => NaN
  | Infinity _, Infinity _ => NaN
  | Infinity s, Fin q => Infinity (xorb s (Qlt_bool q 0))
  | Fin _, Infinity _ => Fin 0
  | Fin x, Fin y =>
      if is_zero y
      then (if is_zero x then NaN else Infinity (Qlt_bool x 0))
      else Fin (Qred (x / y))
  end.

(** [v > 0] and [v < 0] as the sort reads a comparator's result. *)
Definition num_gt0 (v : number) : bool :=
  match v with
  | NaN => false
  | Infinity s => negb s
  | Fin q => Qlt_bool 0 q
  end.

Definition num_lt0 (v : number) : bool :=
  match v with
  | NaN => false
  | Infinity s => s
  | Fin q => Qlt_bool q 0
  end.

(** ToBoolean on a number: [0] and [NaN] are falsy. *)
Definition num_truthy (v : number) : bool :=
  match v with
  | NaN => false
  | Infinity _ => true
  | Fin q => negb (is_zero q)
  end.


Definition num_is_nan (v : number) : bool :=
  match v with NaN => true | _ => false end.

(** The part of the [Math] object the page uses. *)
Class MathLib : Type := {
  Math_PI : number;
  Math_sin : number -> number;
  Math_cos : number -> number;
  Math_sqrt : number -> number;
  Math_atan2 : number -> number -> number
}.

(** ** Strings *)

Module Str.

Definition lower_char (c : ascii) : ascii :=
  let n := nat_of_ascii c in
  if (65 <=? n)%nat && (n <=? 90)%nat then ascii_of_nat (n + 32) else c.

(** [String.prototype.toLowerCase]. *)
Fixpoint toLowerCase (s : string) : string :=
  match s with
  | EmptyString => EmptyString
  | String c s' => String (lower_char c) (toLowerCase s')
  end.

(** [s.startsWith(t)]. *)
Definition startsWith (s t : string) : bool := String.prefix t s.

(** [s.includes(t)]: [t] occurs in [s] at some position. *)
Fixpoint includes (s t : string) : bool :=
  String.prefix t s ||
  match s with
  | EmptyString => false
  | String _ s' => includes s' t
  end.

(** ToBoolean on a string: only the empty string is falsy. *)
Definition nonempty (s : string) : bool :=
  match s with EmptyString => false | String _ _ => true end.

Definition is_space (c : ascii) : bool := Ascii.eqb c " "%char.

Fixpoint nospace (s : string) : Prop :=
  match s with
  | EmptyString => True
  | String c s' => is_space c = false /\ nospace s'
  end.

End Str.
Export Str.

(** ** [parseFloat] *)

Module ParseFloat.

Definition is_white (c : ascii) : bool :=
  let n := nat_of_ascii c in
  (n =? 32)%nat || ((9 <=? n)%nat && (n <=? 13)%nat).

Fixpoint trimStart (s : string) : string :=
  match s with
  | String c s' => if is_white c then trimStart s' else s
  | EmptyString => s
  end.

Definition is_digit (c : ascii) : bool :=
  let n := nat_of_ascii c in (48 <=? n)%nat && (n <=? 57)%nat.

Definition digit_val (c : ascii) : Z := Z.of_nat (nat_of_ascii c - 48).

(** DecimalDigits: the longest run of digits at the head of [s], folded
    into [acc]; [n] counts the digits read. *)
Fixpoint digits (s : string) (acc : Z) (n : nat) : Z * nat * string :=
  match s with
  | String c s' =>
      if is_digit c then digits s' (10 * acc + digit_val c) (S n)
      else (acc, n, s)
  | EmptyString => (acc, n, s)
  end.

Definition sign (s : string) : bool * string :=
  match s with
  | String "-" s' => (true, s')
  | String "+" s' => (false, s')
  | _ => (false, s)
  end.

(** ExponentPart, when one is present at the head of [s]; 0 otherwise. *)
Definition exponent (s : string) : Z :=
  match s with
  | String c s' =>
      if Ascii.eqb c "e" || Ascii.eqb c "E" then
        let (negative, s'') := sign s' in
        let '(e, n, _) := digits s'' 0 0 in
        if (n =? 0)%nat then 0 else if negative then - e else e
      else 0
  | EmptyString => 0
  end%Z.

(** The value of the longest prefix of the trimmed text that is a
    StrDecimalLiteral; [NaN] when there is none. *)
Definition parseFloat (s : string) : number :=
  let (negative, s0) := sign (trimStart s) in
  if String.prefix "Infinity" s0 then Infinity negative else
  let '(i, ni, s1) := digits s0 0 0 in
  let '(m, nf, s2) :=
    match s1 with
    | String "." s1' => digits s1' i 0
    | _ => (i, 0%nat, s1)
    end in
  if (ni + nf =? 0)%nat then NaN else
  let e := exponent s2 in
  Fin (Qred (inject_Z (if negative then - m else m)
             * Qpower (10 # 1) (e - Z.of_nat nf))).

End ParseFloat.
Export ParseFloat.

(** ** The pattern [/\(([^ ]+) ([^ ]+)\)/] *)

Module PointPattern.

(** [[^ ]+], greedy: the longest run of non-space characters and the
    text after it. *)
Fixpoint span_nonspace (s : string) : string * string :=
  match s with
  | EmptyString => (EmptyString, EmptyString)
  | String c s' =>
      if is_space c then (EmptyString, s)
      else let (r, rest) := span_nonspace s' in (String c r, rest)
  end.

(** Backtracking of the second group inside its run [r]: the part of [r]
    before its last closing parenthesis. *)
Fixpoint upto_last_paren (r : string) : option string :=
  match r with
  | EmptyString => None
  | String c r' =>
      match upto_last_paren r' with
      | Some g => Some (String c g)
      | None => if Ascii.eqb c ")" then Some EmptyString else None
      end
  end.

(** The pattern tried just after an opening parenthesis. *)
Definition try_at (s : string) : option (string * string) :=
  match span_nonspace s with
  | (String c g1, String sp rest) =>
      if is_space sp then
        match upto_last_paren (fst (span_nonspace rest)) with
        | Some (String d g2) => Some (String c g1, String d g2)
        | _ => None
        end
      else None
  | _ => None
  end.

(** [loc.match(...)]: the leftmost match, as the pair of its groups. *)
Fixpoint regex_match (s : string) : option (string * string) :=
  match s with
  | EmptyString => None
  | String c s' =>
      if Ascii.eqb c "(" then
        match try_at s' with
        | Some m => Some m
        | None => regex_match s'
        end
      else regex_match s'
  end.

End PointPattern.
Export PointPattern.

(** ** Data model (part_000) *)

Record LatLng : Type := { lat : number; lng : number }.

(** The [location] column, of type [any]: absent, a text, or an object. *)
Inductive location : Type :=
| LAbsent
| LText (s : string)
| LStructured (coordinates : list number).

Record Metadata : Type := {
  tags : option (list string);
  description : option string;
  original_description : option string
}.

Record Place : Type := {
  id : string;
  name : string;
  category : string;
  subcategory : option string;
  loc : location;
  metadata : option Metadata;
  google_url : option string;
  rating : option number;
  address : option string;
  distance : option number
}.

(** [p.metadata?.tags]. *)
Definition metadata_tags (p : Place) : option (list string) :=
  match metadata p with
  | Some m => tags m
  | None => None
  end.

(** ** Coordinate parser *)

Definition parseLocation (l : location) : option LatLng :=
  match l with
  | LAbsent => None
  | LStructured _ => None
  | LText s =>
      if negb (nonempty s) then None
      else if startsWith s "POINT" then
        match regex_match s with
        | Some (m1, m2) => Some {| lng := parseFloat m1; lat := parseFloat m2 |}
        | None => None
        end
      else None
  end.

(** ** Great-circle distance *)

Section Distance.
Context {M : MathLib}.

Definition deg2rad (deg : number) : number :=
  num_mul deg (num_div Math_PI (Fin 180)).

Definition getDistanceFromLatLonInKm (lat1 lon1 lat2 lon2 : number) : number :=
  let R := Fin 6371 in
  let dLat := deg2rad (num_sub lat2 lat1) in
  let dLon := deg2rad (num_sub lon2 lon1) in
  let a :=
    num_add
      (num_mul (Math_sin (num_div dLat (Fin 2))) (Math_sin (num_div dLat (Fin 2))))
      (num_mul
         (num_mul
            (num_mul (Math_cos (deg2rad lat1)) (Math_cos (deg2rad lat2)))
            (Math_sin (num_div dLon (Fin 2))))
         (Math_sin (num_div dLon (Fin 2)))) in
  let c :=
    num_mul (Fin 2)
      (Math_atan2 (Math_sqrt a) (Math_sqrt (num_sub (Fin 1) a))) in
  let d := num_mul R c in
  d.

End Distance.

(** ** The distance formula on doubles *)

(** The formula again, this time on binary64 values with the rounding of
    every operation as IEEE 754 has it, to see what rounding does to it.
    [+], [-], [*], [/] and [Math.sqrt] are correctly rounded in every
    engine.  For [Math.PI], [Math.sin], [Math.cos] and [Math.atan2] the
    double nearest to the true value is taken, the true value being
    computed to 200 binary places; the libraries in use stay within one
    unit in the last place of it.  (The sine and cosine are meant for
    arguments up to [2^64] in size: further out the reduction modulo
    [2 pi] would need more places of pi.  The angles of the page are below
    7 in size.) *)

Module Binary64.
Import PrimFloat FloatOps SpecFloat.
Local Open Scope Z_scope.

(** Reals are carried as integers counting units of [2^-200]. *)
Definition BITS : Z := 200.

Definition fx_mul (a b : Z) : Z := Z.shiftr (a * b) BITS.

Definition fx_div (a b : Z) : Z := Z.shiftl a BITS / b.

Definition fx_of_Z (n : Z) : Z := Z.shiftl n BITS.

(** The value of a finite double. *)
Definition fx_of_float (f : float) : Z :=
  match Prim2SF f with
  | S754_finite s m e =>
      let v := Z.shiftl (Zpos m) (e + BITS) in if s then - v else v
  | _ => 0
  end.

(** The double nearest to a value, ties to even. *)
Definition float_of_fx (v : Z) : float :=
  let a := Z.abs v in
  if a =? 0 then zero
  else
    let shift := Z.log2 a - 52 in
    let q :=
      if shift <=? 0 then Z.shiftl a (- shift)
      else
        let q0 := Z.shiftr a shift in
        let r := a - Z.shiftl q0 shift in
        let half := Z.shiftl 1 (shift - 1) in
        if (half <? r) || ((half =? r) && Z.odd q0) then q0 + 1 else q0 in
    SF2Prim (S754_finite (v <? 0) (Z.to_pos q) (shift - BITS)).

(** The sum of [n] further terms of a series, each term got from the one
    before by [next]. *)
Fixpoint series (next : Z -> Z -> Z) (n : nat) (k : Z) (term sum : Z) : Z :=
  match n with
  | O => sum
  | S n' =>
      let term' := next k term in
      series next n' (k + 1) term' (sum + term')
  end.

(** [s - s^3/3 + s^5/5 - ...], for [|s| < 1/2]. *)
Fixpoint atan_series (n : nat) (k : Z) (power s2 sum : Z) : Z :=
  match n with
  | O => sum
  | S n' =>
      let power' := - fx_mul power s2 in
      atan_series n' (k + 1) power' s2 (sum + power' / (2 * k + 1))
  end.

Definition fx_atan_small (s : Z) : Z :=
  atan_series 150 1 s (fx_mul s s) s.

(** Machin's formula: [pi = 16 atan (1/5) - 4 atan (1/239)]. *)
Definition fx_pi : Z :=
  16 * fx_atan_small (fx_div (fx_of_Z 1) (fx_of_Z 5))
  - 4 * fx_atan_small (fx_div (fx_of_Z 1) (fx_of_Z 239)).

(** The arc tangent of [t], for [0 <= t <= 1]. *)
Definition fx_atan_unit (t : Z) : Z :=
  let one := fx_of_Z 1 in
  if 2 * t <? one then fx_atan_small t
  else fx_pi / 4 + fx_atan_small (fx_div (t - one) (t + one)).

(** The angle of the point [(x, y)] with [y > 0], between 0 and pi; only
    the ratio of [y] and [x] matters. *)
Definition fx_angle (y x : Z) : Z :=
  let ax := Z.abs x in
  let a :=
    if y <=? ax then fx_atan_unit (fx_div y ax)
    else fx_pi / 2 - fx_atan_unit (fx_div ax y) in
  if x <? 0 then fx_pi - a else a.

(** The argument brought into [[-pi, pi]]. *)
Definition fx_reduce (x : Z) : Z :=
  let two_pi := 2 * fx_pi in
  x - ((2 * x + two_pi) / (2 * two_pi)) * two_pi.

Definition fx_sin (x : Z) : Z :=
  let r := fx_reduce x in
  let r2 := fx_mul r r in
  series (fun k t => - fx_mul t r2 / ((2 * k) * (2 * k + 1))) 80 1 r r.

Definition fx_cos (x : Z) : Z :=
  let r := fx_reduce x in
  let r2 := fx_mul r r in
  let one := fx_of_Z 1 in
  series (fun k t => - fx_mul t r2 / ((2 * k - 1) * (2 * k))) 80 1 one one.

(** Below [2^-27] the sine of [x] rounds to [x] and the cosine to 1. *)
Definition tiny (x : float) : bool := (abs x <? 0x1p-27)%float.

Definition Math_PI : float := float_of_fx fx_pi.

Definition Math_sin (x : float) : float :=
  if is_nan x || is_infinity x then nan
  else if tiny x then x
  else float_of_fx (fx_sin (fx_of_float x)).

Definition Math_cos (x : float) : float :=
  if is_nan x || is_infinity x then nan
  else if tiny x then one
  else float_of_fx (fx_cos (fx_of_float x)).

(** [Math.sqrt]: NaN below zero. *)
Definition Math_sqrt (x : float) : float := PrimFloat.sqrt x.

(** [|y|] and [x], both finite and not zero, as integers over a common
    power of two. *)
Definition scaled_pair (y x : float) : Z * Z :=
  match Prim2SF y, Prim2SF x with
  | S754_finite _ my ey, S754_finite sx mx ex =>
      let e0 := Z.min ey ex in
      (Z.shiftl (Zpos my) (ey - e0),
       (if sx then -1 else 1) * Z.shiftl (Zpos mx) (ex - e0))
  | _, _ => (0, 1)
  end.

Definition with_sign_of (y v : float) : float :=
  if get_sign y then (- v)%float else v.

(** [Math.atan2 (y, x)], with the special cases of ECMAScript: NaN for a
    NaN argument, the quadrant limits at zeros and infinities. *)
Definition Math_atan2 (y x : float) : float :=
  if is_nan y || is_nan x then nan
  else
    let v :=
      if is_infinity y then
        if is_infinity x
        then (if get_sign x then float_of_fx (3 * fx_pi / 4)
              else float_of_fx (fx_pi / 4))
        else float_of_fx (fx_pi / 2)
      else if is_infinity x then
        (if get_sign x then Math_PI else zero)
      else if PrimFloat.is_zero y then
        (if get_sign x then Math_PI else zero)
      else if PrimFloat.is_zero x then float_of_fx (fx_pi / 2)
      else
        let q := abs (y / x) in
        if (q <? 0x1p-27)%float && negb (get_sign x) then q
        else
          let (ay, vx) := scaled_pair y x in float_of_fx (fx_angle ay vx) in
    with_sign_of y v.

Definition deg2rad (deg : float) : float := (deg * (Math_PI / 180))%float.

Definition getDistanceFromLatLonInKm (lat1 lon1 lat2 lon2 : float) : float :=
  let R := 6371%float in
  let dLat := deg2rad (lat2 - lat1) in
  let dLon := deg2rad (lon2 - lon1) in
  let a :=
    (Math_sin (dLat / 2) * Math_sin (dLat / 2) +
     Math_cos (deg2rad lat1) * Math_cos (deg2rad lat2) *
     Math_sin (dLon / 2) * Math_sin (dLon / 2))%float in
  let c := (2 * Math_atan2 (Math_sqrt a) (Math_sqrt (1 - a)))%float in
  let d := (R * c)%float in
  d.

(** The value of the local [a] of [getDistanceFromLatLonInKm]. *)
Definition haversine_term (lat1 lon1 lat2 lon2 : float) : float :=
  let dLat := deg2rad (lat2 - lat1) in
  let dLon := deg2rad (lon2 - lon1) in
  (Math_sin (dLat / 2) * Math_sin (dLat / 2) +
   Math_cos (deg2rad lat1) * Math_cos (deg2rad lat2) *
   Math_sin (dLon / 2) * Math_sin (dLon / 2))%float.

End Binary64.

(** ** [Array.prototype.sort] *)

(** The sort of the engine the page runs on. *)
Class SortEngine : Type := {
  Array_sort : forall A : Type, (A -> A -> number) -> list A -> list A
}.
Arguments Array_sort {_} {A} compareFn l.

Section ArraySort.
Context {A : Type} (compareFn : A -> A -> number).

(** The answers of a comparison: [a <CF b], [a >CF b], [a =CF b]. *)
Definition cf_lt (a b : A) : Prop := num_lt0 (compareFn a b) = true.

Definition cf_gt (a b : A) : Prop := num_gt0 (compareFn a b) = true.

Definition cf_eq (a b : A) : Prop :=
  num_lt0 (compareFn a b) = false /\ num_gt0 (compareFn a b) = false.

(** ECMAScript's "consistent comparator" for the values of [l]: no
    comparison answers NaN, [=CF] is an equivalence, [<CF] and [>CF] are
    transitive. *)
Definition consistent (l : list A) : Prop :=
  forall a b c, In a l -> In b l -> In c l ->
    num_is_nan (compareFn a b) = false
    /\ cf_eq a a
    /\ (cf_eq a b -> cf_eq b a)
    /\ (cf_eq a b -> cf_eq b c -> cf_eq a c)
    /\ (cf_lt a b -> cf_lt b c -> cf_lt a c)
    /\ (cf_gt a b -> cf_gt b c -> cf_gt a c).

(** [a] may stand before [b]: the comparator does not ask for [b]
    first. *)
Definition in_order (a b : A) : Prop := num_gt0 (compareFn a b) = false.

(** [a =CF b], as a test. *)
Definition same_class (a b : A) : bool :=
  negb (num_lt0 (compareFn a b)) && negb (num_gt0 (compareFn a b)).

(** The sort order required of [result], the sorted [l], when the
    comparator is consistent: ascending, and elements that compare equal in
    their original order. *)
Definition required_order (l result : list A) : Prop :=
  StronglySorted in_order result
  /\ forall a, In a l ->
       List.filter (same_class a) result = List.filter (same_class a) l.

(** A sort by insertion, used as the reference: [x] moves to the right
    past every element it compares greater than.  For a consistent
    comparator its result is the one in the required order. *)
Fixpoint sort_insert (x : A) (l : list A) : list A :=
  match l with
  | [] => [x]
  | y :: l' =>
      if num_gt0 (compareFn x y) then y :: sort_insert x l' else x :: l
  end.

Definition stable_sort (l : list A) : list A :=
  fold_right sort_insert [] l.

(** [x] put into [sorted] from the right: behind every element it is not
    below.  This is where V8's binary insertion puts it in an ascending
    list. *)
Fixpoint insert_right (x : A) (sorted : list A) : list A :=
  match sorted with
  | [] => [x]
  | y :: sorted' =>
      if num_lt0 (compareFn x y) then x :: sorted
      else y :: insert_right x sorted'
  end.

(** V8 on an array of fewer than 64 elements (array-sort.tq): one run is
    found and made ascending, then extended over the whole array by binary
    insertion.  A NaN answer of the comparator counts as 0. *)

(** The elements after [previous] that go on with the run. *)
Fixpoint run_more (descending : bool) (previous : A) (rest : list A) : nat :=
  match rest with
  | [] => O
  | current :: rest' =>
      if Bool.eqb (num_lt0 (compareFn current previous)) descending
      then S (run_more descending current rest')
      else O
  end.

(** The array with its first run made ascending, and the length of that
    run. *)
Definition CountAndMakeRun (l : list A) : list A * nat :=
  match l with
  | x0 :: x1 :: rest =>
      let descending := num_lt0 (compareFn x1 x0) in
      let runLength := (2 + run_more descending x1 rest)%nat in
      (if descending
       then rev (firstn runLength l) ++ skipn runLength l
       else l,
       runLength)
  | _ => (l, List.length l)
  end.

(** The loop [while (left < right)] of the insertion; [fuel] bounds its
    turns. *)
Fixpoint binary_search (fuel : nat) (pivot : A) (sorted : list A)
    (left right : nat) : nat :=
  match fuel with
  | O => left
  | S fuel' =>
      if (left <? right)%nat then
        let mid := (left + (right - left) / 2)%nat in
        match nth_error sorted mid with
        | Some m =>
            if num_lt0 (compareFn pivot m)
            then binary_search fuel' pivot sorted left mid
            else binary_search fuel' pivot sorted (mid + 1) right
        | None => left
        end
      else left
  end.

Definition binary_insert (sorted : list A) (pivot : A) : list A :=
  let left :=
    binary_search (List.length sorted) pivot sorted 0 (List.length sorted) in
  firstn left sorted ++ pivot :: skipn left sorted.

Definition BinaryInsertionSort (l : list A) (start : nat) : list A :=
  fold_left binary_insert (skipn start l) (firstn start l).

Definition v8_sort_short (l : list A) : list A :=
  let (l', runLength) := CountAndMakeRun l in
  BinaryInsertionSort l' runLength.

End ArraySort.

(** What ECMAScript requires of every engine: the result is a
    rearrangement of the array, and for a consistent comparator it is in
    the required order (otherwise the order is implementation-defined). *)
Definition conforms (E : SortEngine) : Prop :=
  forall (A : Type) (compareFn : A -> A -> number) (l : list A),
    Permutation (Array_sort compareFn l) l
    /\ (consistent compareFn l ->
        required_order compareFn l (Array_sort compareFn l)).

(** The engine that sorts by the reference sort. *)
Definition reference_engine : SortEngine :=
  {| Array_sort := fun A compareFn l => stable_sort compareFn l |}.

(** An engine that sorts as V8 does on arrays of fewer than 64 elements.
    (On longer arrays V8 merges several runs, which is not modelled: there
    this engine gives the reference order.) *)
Definition V8_short_arrays : SortEngine :=
  {| Array_sort := fun A compareFn l =>
       if (List.length l <? 64)%nat then v8_sort_short compareFn l
       else stable_sort compareFn l |}.

(** ** The pipeline: [processedPlaces] *)

(** [{ ...p, distance: dist }]. *)
Definition with_distance (p : Place) (dist : option number) : Place :=
  {| id := id p; name := name p; category := category p;
     subcategory := subcategory p; loc := loc p; metadata := metadata p;
     google_url := google_url p; rating := rating p; address := address p;
     distance := dist |}.

(** [tags.some(t => t.toLowerCase().includes(lower))]; [undefined], hence
    falsy, when the record has no tags. *)
Definition tags_some_include (p : Place) (lower : string) : bool :=
  match metadata_tags p with
  | Some ts => existsb (fun t => includes (toLowerCase t) lower) ts
  | None => false
  end.

(** [tags.includes(activeTag)]. *)
Definition tags_include (p : Place) (activeTag : string) : bool :=
  match metadata_tags p with
  | Some ts => existsb (String.eqb activeTag) ts
  | None => false
  end.

(** The comparator handed to [sort]. *)
Definition byDistance (a b : Place) : number :=
  match distance a, distance b with
  | Some da, Some db => num_sub da db
  | _, _ => Fin 0
  end.

Definition sortStep {E : SortEngine} (result : list Place) : list Place :=
  Array_sort byDistance result.

Definition categoryStep (activeCategory : string) (result : list Place)
  : list Place :=
  if negb (String.eqb activeCategory "all")
  then List.filter (fun p => String.eqb (category p) activeCategory) result
  else result.

Definition searchStep (searchTerm : string) (result : list Place)
  : list Place :=
  if nonempty searchTerm then
    let lower := toLowerCase searchTerm in
    List.filter
      (fun p => includes (toLowerCase (name p)) lower
                || tags_some_include p lower)
      result
  else result.

Definition tagStep (activeTag : string) (result : list Place) : list Place :=
  if nonempty activeTag
  then List.filter (fun p => tags_include p activeTag) result
  else result.

Section Pipeline.
Context {E : SortEngine} {M : MathLib}.

Definition annotate (userLocation : option LatLng) (p : Place) : Place :=
  let pLoc := parseLocation (loc p) in
  let dist :=
    match userLocation, pLoc with
    | Some u, Some q =>
        Some (getDistanceFromLatLonInKm (lat u) (lng u) (lat q) (lng q))
    | _, _ => None
    end in
  with_distance p dist.

Definition processedPlaces (places : list Place)
    (activeCategory searchTerm activeTag : string)
    (userLocation : option LatLng) : list Place :=
  let result := List.map (annotate userLocation) places in
  let result := categoryStep activeCategory result in
  let result := searchStep searchTerm result in
  let result := tagStep activeTag result in
  sortStep result.

End Pipeline.

(** ** Pagination *)

Definition PAGE_SIZE : nat := 30.

Definition visiblePlaces (processed : list Place) (page : nat) : list Place :=
  firstn (page * PAGE_SIZE) processed.

(** The count on the "load more" control. *)
Definition remainingCount (processed : list Place) (page : nat) : Z :=
  Z.of_nat (List.length processed) - Z.of_nat (List.length (visiblePlaces processed page)).

Definition showLoadMore (processed : list Place) (page : nat) : bool :=
  (List.length (visiblePlaces processed page) <? List.length processed)%nat.

(** ** Tag vocabulary: [availableTags] *)

(** [Set.prototype.add] on a set kept in insertion order. *)
Definition Set_add (s : list string) (t : string) : list string :=
  if existsb (String.eqb t) s then s else s ++ [t].

Definition availableTags (places : list Place) (activeCategory : string)
  : list string :=
  let categoryPlaces :=
    List.filter (fun p => String.eqb (category p) activeCategory) places in
  let allTags :=
    fold_left
      (fun acc p =>
         match metadata_tags p with
         | Some ts => fold_left Set_add ts acc
         | None => acc
         end)
      categoryPlaces [] in
  firstn 15 allTags.

(** ** Page state and its handlers *)

Record State : Type := {
  places : list Place;
  loading : bool;
  searchTerm : string;
  activeCategory : string;
  activeTag : string;
  userLocation : option LatLng;
  page : nat;
  searchExpanded : bool
}.

Definition initialState : State :=
  {| places := []; loading := true; searchTerm := ""; activeCategory := "food";
     activeTag := ""; userLocation := None; page := 1;
     searchExpanded := false |}.

Inductive Event : Type :=
| ClickCategory (cat_id : string)
| ChangeSearch (value : string)
| ClickTag (tag : string)
| ClickAllTags
| ClickLoadMore
| ClickSearchIcon
| BlurSearch
| GeoPosition (latitude longitude : number)
| FetchStarted
| FetchSucceeded (data : list Place)
| FetchFailed.

Definition setActiveCategory (v : string) (s : State) : State :=
  {| places := places s; loading := loading s; searchTerm := searchTerm s;
     activeCategory := v; activeTag := activeTag s;
     userLocation := userLocation s; page := page s;
     searchExpanded := searchExpanded s |}.

Definition setActiveTag (v : string) (s : State) : State :=
  {| places := places s; loading := loading s; searchTerm := searchTerm s;
     activeCategory := activeCategory s; activeTag := v;
     userLocation := userLocation s; page := page s;
     searchExpanded := searchExpanded s |}.

Definition setPage (f : nat -> nat) (s : State) : State :=
  {| places := places s; loading := loading s; searchTerm := searchTerm s;
     activeCategory := activeCategory s; activeTag := activeTag s;
     userLocation := userLocation s; page := f (page s);
     searchExpanded := searchExpanded s |}.

Definition setSearchTerm (v : string) (s : State) : State :=
  {| places := places s; loading := loading s; searchTerm := v;
     activeCategory := activeCategory s; activeTag := activeTag s;
     userLocation := userLocation s; page := page s;
     searchExpanded := searchExpanded s |}.

Definition setSearchExpanded (v : bool) (s : State) : State :=
  {| places := places s; loading := loading s; searchTerm := searchTerm s;
     activeCategory := activeCategory s; activeTag := activeTag s;
     userLocation := userLocation s; page := page s;
     searchExpanded := v |}.

Definition setUserLocation (v : option LatLng) (s : State) : State :=
  {| places := places s; loading := loading s; searchTerm := searchTerm s;
     activeCategory := activeCategory s; activeTag := activeTag s;
     userLocation := v; page := page s;
     searchExpanded := searchExpanded s |}.

Definition setLoading (v : bool) (s : State) : State :=
  {| places := places s; loading := v; searchTerm := searchTerm s;
     activeCategory := activeCategory s; activeTag := activeTag s;
     userLocation := userLocation s; page := page s;
     searchExpanded := searchExpanded s |}.

Definition setPlaces (v : list Place) (s : State) : State :=
  {| places := v; loading := loading s; searchTerm := searchTerm s;
     activeCategory := activeCategory s; activeTag := activeTag s;
     userLocation := userLocation s; page := page s;
     searchExpanded := searchExpanded s |}.

(** One handler run: the state after the event. *)
Definition handle (e : Event) (s : State) : State :=
  match e with
  | ClickCategory cat_id =>
      setPage (fun _ => 1) (setActiveTag "" (setActiveCategory cat_id s))
  | ChangeSearch value => setSearchTerm value s
  | ClickTag tag => setActiveTag tag s
  | ClickAllTags => setActiveTag "" s
  | ClickLoadMore => setPage (fun p => p + 1) s
  | ClickSearchIcon => setSearchExpanded (negb (searchExpanded s)) s
  | BlurSearch =>
      if negb (nonempty (searchTerm s)) then setSearchExpanded false s else s
  | GeoPosition latitude longitude =>
      setUserLocation (Some {| lat := latitude; lng := longitude |}) s
  | FetchStarted => setLoading true s
  | FetchSucceeded data => setLoading false (setPlaces data s)
  | FetchFailed => setLoading false s
  end.

Definition run (es : list Event) (s : State) : State :=
  fold_left (fun st e => handle e st) es s.

(** The views of a state. *)
Section Views.
Context {E : SortEngine} {M : MathLib}.

Definition processedOf (s : State) : list Place :=
  processedPlaces (places s) (activeCategory s) (searchTerm s) (activeTag s)
    (userLocation s).

Definition visibleOf (s : State) : list Place :=
  visiblePlaces (processedOf s) (page s).

End Views.

Definition availableTagsOf (s : State) : list string :=
  availableTags (places s) (activeCategory s).

(** ** The place card *)

(** What [{place.distance && (<span>...</span>)}] evaluates to: the falsy
    left operand itself, or the badge. *)
Inductive BadgeSlot : Type :=
| SlotUndefined
| SlotNumber (v : number)
| SlotBadge (km : number).

Definition distanceSlot (place : Place) : BadgeSlot :=
  match distance place with
  | None => SlotUndefined
  | Some d => if num_truthy d then SlotBadge d else SlotNumber d
  end.

Definition badgeShown (place : Place) : bool :=
  match distanceSlot place with
  | SlotBadge _ => true
  | _ => false
  end.

(** [place.metadata?.tags?.slice(0, 3)]. *)
Definition cardTags (place : Place) : option (list string) :=
  match metadata_tags place with
  | Some ts => Some (firstn 3 ts)
  | None => None
  end.

(** ** The earlier page (src/app/page.tsx) *)

Module Legacy.

Definition filteredPlaces (places : list Place)
    (searchTerm activeCategory : string) : list Place :=
  List.filter
    (fun place =>
       let matchSearch :=
         includes (toLowerCase (name place)) (toLowerCase searchTerm)
         || tags_some_include place (toLowerCase searchTerm) in
       let matchCategory :=
         String.eqb activeCategory "all"
         || String.eqb (category place) activeCategory in
       matchSearch && matchCategory)
    places.

(** Arrays live in a heap and are named by reference: [getTags] works on
    the array a fetched record holds, not on a copy of it. *)
Abbreviation ref := nat.

Abbreviation heap := (gmap nat (list string)).

(** A fetched record as [getTags] sees it: its [subcategory] and the
    reference in [metadata.tags], when there is one. *)
Record PlaceObj : Type := {
  obj_subcategory : option string;
  obj_tags : option ref
}.

Definition Heap (A : Type) : Type := heap -> A * heap.

#[global] Instance Heap_ret : MRet Heap := fun A (x : A) (h : heap) => (x, h).

#[global] Instance Heap_bind : MBind Heap :=
  fun A B (f : A -> Heap B) (m : Heap A) (h : heap) =>
    let (x, h') := m h in f x h'.

(** The array literal [[]]: a new array at an unused reference. *)
Definition alloc (v : list string) : Heap ref :=
  fun h => let r := fresh (dom h) in (r, <[r := v]> h).

(** [arr.unshift(x)], in place. *)
Definition unshift (r : ref) (x : string) : Heap unit :=
  fun h => (tt, alter (cons x) r h).

(** [arr.slice(0, n)]: a copy of the first [n] entries. *)
Definition slice0 (r : ref) (n : nat) : Heap (list string) :=
  fun h => (firstn n (default [] (h !! r)), h).

Definition getTags (place : PlaceObj) : Heap (list string) :=
  defaultTags ← match obj_tags place with
                | Some r => mret r
                | None => alloc []
                end;
  _ ← match obj_subcategory place with
      | Some sub => if nonempty sub then unshift defaultTags sub else mret tt
      | None => mret tt
      end;
  slice0 defaultTags 3.

(** The tags array of a record, read from the heap. *)
Definition tags_of (place : PlaceObj) (h : heap) : option (list string) :=
  match obj_tags place with
  | Some r => h !! r
  | None => None
  end.

End Legacy.

(** The tag display of the current page on the same heap. *)
Definition cardTagsH (place : Legacy.PlaceObj)
  : Legacy.Heap (option (list string)) :=
  match Legacy.obj_tags place with
  | Some r => ts ← Legacy.slice0 r 3; mret (Some ts)
  | None => mret None
  end.

(** ** Notions used in the statements *)

(** The texts the pattern matches somewhere: an opening parenthesis, two
    non-empty groups free of spaces with one space between them, a closing
    parenthesis. *)
Definition has_point_shape (s : string) : Prop :=
  exists pre g1 g2 post,
    s = (pre ++ String "(" (g1 ++ String " " (g2 ++ String ")" post)))%string
    /\ g1 <> EmptyString /\ g2 <> EmptyString /\ nospace g1 /\ nospace g2.

(** The inputs that are not a POINT text: anything but a text that starts
    with POINT and holds a parenthesised pair of tokens. *)
Definition not_point_text (l : location) : Prop :=
  match l with
  | LText s => ~ (startsWith s "POINT" = true /\ has_point_shape s)
  | LAbsent | LStructured _ => True
  end.

(** A place with a distance the comparator can order: a number other than
    [NaN]. *)
Definition comparable (p : Place) : bool :=
  match distance p with
  | Some d => negb (num_is_nan d)
  | None => false
  end.

(** [t] occurs in [s], letter case aside. *)
Definition ci_contains (s t : string) : Prop :=
  exists pre post, toLowerCase s = (pre ++ toLowerCase t ++ post)%string.

(** The name of the place, or one of its tags, contains the term. *)
Definition matches_search (p : Place) (term : string) : Prop :=
  ci_contains (name p) term
  \/ exists ts t, metadata_tags p = Some ts /\ In t ts /\ ci_contains t term.

(** Each value once, at the place of its first occurrence. *)
Fixpoint first_seen (l : list string) : list string :=
  match l with
  | [] => []
  | x :: l' => x :: List.filter (fun y => negb (String.eqb x y)) (first_seen l')
  end.

(** The tags of the places of a category, in record order. *)
Definition category_tags (places : list Place) (activeCategory : string)
  : list string :=
  flat_map
    (fun p => match metadata_tags p with Some ts => ts | None => [] end)
    (List.filter (fun p => String.eqb (category p) activeCategory) places).

(** The vocabulary in the words of its contract. *)
Definition availableTags_spec (places : list Place) (activeCategory : string)
  : list string :=
  firstn 15 (first_seen (category_tags places activeCategory)).

(** The number is zero. *)
Definition num_is_zero (v : number) : Prop :=
  match v with
  | Fin q => (q == 0)%Q
  | _ => False
  end.

(** ** Sample records *)

Definition mkPlace (i n c : string) (l : location) (ts : option (list string))
    (d : option number) : Place :=
  {| id := i; name := n; category := c; subcategory := None; loc := l;
     metadata := Some {| tags := ts; description := None;
                         original_description := None |};
     google_url := None; rating := None; address := None; distance := d |}.

Definition place_far : Place :=
  mkPlace "1" "Harbour Grill" "food" LAbsent None (Some (Fin 5)).

Definition place_near : Place :=
  mkPlace "2" "Noodle Bar" "food" LAbsent None (Some (Fin 1)).


Definition place_mid : Place :=
  mkPlace "4" "Tea House" "food" LAbsent None (Some (Fin 2)).


Definition place_temple_cafe : Place :=
  mkPlace "6" "Temple View Cafe" "food" LAbsent (Some ["coffee"]) None.

Definition place_x : Place :=
  mkPlace "7" "X" "food" LAbsent (Some ["temple"]) None.

Definition place_bakery : Place :=
  mkPlace "8" "Bakery" "food" LAbsent (Some ["bread"]) None.

Definition place_here : Place :=
  mkPlace "9" "Pier Stall" "food" (LText "POINT(120.3 22.6)") None (Some (Fin 0)).

Definition tagged (i c : string) (ts : list string) : Place :=
  mkPlace i i c LAbsent (Some ts) None.

Definition eighteen_tags : list Place :=
  [ tagged "p1" "food" ["a"; "b"; "a"; "c"];
    tagged "p2" "dive" ["reef"; "a"];
    tagged "p3" "food" ["d"; "e"; "f"; "b"; "g"; "h"];
    mkPlace "p4" "p4" "food" LAbsent None None;
    tagged "p5" "food" ["i"; "j"; "k"; "l"; "m"; "a"; "n"; "o"; "p"; "q"; "r"] ].

Definition heap0 : Legacy.heap := {[ 0%nat := ["beach"; "sunset"] ]}.

Definition obj0 : Legacy.PlaceObj :=
  {| Legacy.obj_subcategory := Some "cafe"; Legacy.obj_tags := Some 0%nat |}.

(** ** The rest of the page (part_000) *)

(** [CATEGORIES.map(cat => cat.id)]: the tabs, by id, in display order
    (labels and icons left out). *)
Definition CATEGORIES : list string := ["food"; "travel"; "dive"; "pet"].

(** The class test of a category tab, [activeCategory === cat.id]. *)
Definition tabActive (s : State) (cat_id : string) : bool :=
  String.eqb (activeCategory s) cat_id.








(** [raw.replace(/<[^>]*>?/gm, ' ')]: one pass; [in_tag] holds between an
    opening [<] and the next [>]. *)
Fixpoint strip_tags_from (in_tag : bool) (s : string) : string :=
  match s with
  | EmptyString => EmptyString
  | String c s' =>
      if in_tag then
        if Ascii.eqb c ">" then strip_tags_from false s'
        else strip_tags_from true s'
      else if Ascii.eqb c "<" then String " " (strip_tags_from true s')
      else String c (strip_tags_from false s')
  end.

Definition strip_tags (s : string) : string := strip_tags_from false s.

(** [.replace(/&nbsp;/g, ' ')]: [skip] counts the characters of a match
    still to pass over. *)
Fixpoint replace_nbsp_from (skip : nat) (s : string) : string :=
  match s with
  | EmptyString => EmptyString
  | String c s' =>
      match skip with
      | S k => replace_nbsp_from k s'
      | O =>
          if String.prefix "&nbsp;" s then String " " (replace_nbsp_from 5 s')
          else String c (replace_nbsp_from 0 s')
      end
  end.

Definition replace_nbsp (s : string) : string := replace_nbsp_from 0 s.

Definition cleanAddress (meta : option Metadata) : string :=
  let raw :=
    match meta with
    | Some m =>
        match original_description m with
        | Some d => d
        | None => EmptyString
        end
    | None => EmptyString
    end in
  let clean := replace_nbsp (strip_tags raw) in
  (String.substring 0 80 clean
   ++ (if (80 <? String.length clean)%nat then "..." else ""))%string.

(** ToBoolean on an optional string. *)
Definition truthy_text (o : option string) : bool :=
  match o with
  | Some t => nonempty t
  | None => false
  end.

(** [place.metadata?.original_description]. *)
Definition metadata_original_description (p : Place) : option string :=
  match metadata p with
  | Some m => original_description m
  | None => None
  end.

(** The address row of a card: [None] when the row is left out, the text
    [place.address || cleanAddress(place.metadata)] when it is there. *)
Definition addressRow (place : Place) : option string :=
  if truthy_text (address place)
     || (truthy_text (metadata_original_description place)
         && String.eqb (category place) "pet")
  then
    Some (match address place with
          | Some a => if nonempty a then a else cleanAddress (metadata place)
          | None => cleanAddress (metadata place)
          end)
  else None.

Section Screen.
Context {E : SortEngine} {M : MathLib}.

(** The controls a state offers: a tab per category, a chip per
    available tag (and "all" when there is any), "load more" while not
    loading and while something is left; the search box and the
    completions of the fetch and of the geolocation request come at any
    time. *)
Definition enabled (s : State) (e : Event) : bool :=
  match e with
  | ClickCategory cat_id => existsb (String.eqb cat_id) CATEGORIES
  | ClickTag tag => existsb (String.eqb tag) (availableTagsOf s)
  | ClickAllTags => (0 <? List.length (availableTagsOf s))%nat
  | ClickLoadMore =>
      negb (loading s) && showLoadMore (processedOf s) (page s)
  | _ => true
  end.

Inductive reachable : State -> Prop :=
| reachable_init : reachable initialState
| reachable_step s e :
    reachable s -> enabled s e = true -> reachable (handle e s).

(** Every event of the sequence is offered when its turn comes. *)
Fixpoint enabled_all (es : list Event) (s : State) : bool :=
  match es with
  | [] => true
  | e :: es' => enabled s e && enabled_all es' (handle e s)
  end.

(** The "nothing found" notice: not loading and [visiblePlaces.length === 0]. *)
Definition showEmptyState (s : State) : bool :=
  negb (loading s) && (List.length (visibleOf s) =? 0)%nat.

End Screen.

(** ** A sample [Math] *)

(** Short series for the [Math] functions, exact at the arguments where
    ECMAScript fixes the value; used to run the distance formula on sample
    data. *)
Definition series_sin (v : number) : number :=
  match v with
  | Fin q => Fin (Qred (q - q * q * q / 6))
  | _ => NaN
  end.

Definition series_cos (v : number) : number :=
  match v with
  | Fin q => Fin (Qred (1 - q * q / 2))
  | _ => NaN
  end.

(** Twelve decimals are kept. *)
Definition round12 (q : Q) : Q :=
  Qred (Qfloor (q * (1000000000000 # 1)) # 1000000000000).

Fixpoint newton_sqrt (n : nat) (q x : Q) : Q :=
  match n with
  | O => x
  | S k => newton_sqrt k q (round12 ((x + q / x) / 2))
  end.

Definition series_sqrt (v : number) : number :=
  match v with
  | NaN => NaN
  | Infinity s => if s then NaN else Infinity false
  | Fin q =>
      if Qlt_bool q 0 then NaN
      else if is_zero q then Fin 0
      else Fin (newton_sqrt 60 q (if Qlt_bool q 1 then 1%Q else q))
  end.

Definition series_atan2 (y x : number) : number :=
  match y, x with
  | Fin a, Fin b =>
      if Qlt_bool 0 b then Fin (Qred (a / b))
      else if Qlt_bool b 0 then
        Fin (Qred (a / b + (if Qlt_bool a 0 then - (355 # 113) else 355 # 113)))
      else if is_zero a then Fin 0
      else Fin (Qred (if Qlt_bool a 0 then - (355 # 226) else 355 # 226))
  | _, _ => NaN
  end.

Definition seriesMath : MathLib :=
  {| Math_PI := Fin (355 # 113);
     Math_sin := series_sin;
     Math_cos := series_cos;
     Math_sqrt := series_sqrt;
     Math_atan2 := series_atan2 |}.

(** ** Further notions used in the statements *)

(** The tag is among the tags of the place. *)
Definition has_tag (p : Place) (tag : string) : Prop :=
  exists ts, metadata_tags p = Some ts /\ In tag ts.



Definition place_mid_twin : Place :=
  mkPlace "10" "Tea Garden" "food" LAbsent None (Some (Fin (4 # 2))).

(** A state met on the way: the fetch has answered, the user has moved
    to the diving tab and asked for more. *)
Definition sample_events : list Event :=
  [FetchStarted; FetchSucceeded (repeat (tagged "reef" "dive" ["wreck"]) 40);
   ClickCategory "dive"; ClickLoadMore].

Definition sample_state : State := run sample_events initialState.

(** Every character of the text passes the test. *)
Fixpoint string_forallb (f : ascii -> bool) (s : string) : bool :=
  match s with
  | EmptyString => true
  | String c s' => f c && string_forallb f s'
  end.






(** Neither the start of a tag nor the start of an entity. *)
Definition plain_char (c : ascii) : bool :=
  negb (Ascii.eqb c "<") && negb (Ascii.eqb c "&").

Definition not_lt (c : ascii) : bool := negb (Ascii.eqb c "<").

Definition place_pet_shop : Place :=
  {| id := "12"; name := "Paws"; category := "pet"; subcategory := None;
     loc := LAbsent;
     metadata := Some {| tags := None; description := None;
                         original_description :=
                           Some "302 Hsinchu<br>+886&nbsp;3 555" |};
     google_url := None; rating := None; address := None; distance := None |}.

(** The heap after [n] renderings of the card of a record on the earlier
    page. *)
Fixpoint render_times (n : nat) (place : Legacy.PlaceObj)
    (h : gmap nat (list string)) : gmap nat (list string) :=
  match n with
  | O => h
  | S k => render_times k place (snd (Legacy.getTags place h))
  end.

(** The place has a finite distance. *)
Definition has_finite_distance (p : Place) : bool :=
  match distance p with
  | Some (Fin _) => true
  | _ => false
  end.



(** * Properties *)

(** ** The pattern and the coordinate parser *)

Lemma sapp_nil t : ("" ++ t)%string = t.
Proof. reflexivity. Qed.

Lemma sapp_cons c s t : (String c s ++ t)%string = String c (s ++ t)%string.
Proof. reflexivity. Qed.

Lemma sapp_nil_r s : (s ++ "")%string = s.
Proof.
  induction s as [|c s IH]; [reflexivity|]. now rewrite sapp_cons, IH.
Qed.

Lemma sapp_assoc a b c : ((a ++ b) ++ c)%string = (a ++ (b ++ c))%string.
Proof.
  induction a as [|x a IH]; [reflexivity|]. now rewrite !sapp_cons, IH.
Qed.

Ltac ssimpl := repeat (progress (simpl; rewrite ?sapp_nil, ?sapp_cons)).

Lemma span_nonspace_app g t :
  nospace g ->
  span_nonspace (g ++ t)
  = ((g ++ fst (span_nonspace t))%string, snd (span_nonspace t)).
Proof.
  induction g as [|c g IH]; ssimpl.
  - intros _. now destruct (span_nonspace t).
  - intros [Hc Hg]. rewrite Hc, (IH Hg). reflexivity.
Qed.

Lemma span_nonspace_split s :
  s = (fst (span_nonspace s) ++ snd (span_nonspace s))%string.
Proof.
  induction s as [|c s IH]; simpl; [reflexivity|].
  destruct (is_space c); simpl; [reflexivity|].
  destruct (span_nonspace s) as [r rest]; simpl in *.
  now rewrite sapp_cons, <- IH.
Qed.

Lemma span_nonspace_nospace s : nospace (fst (span_nonspace s)).
Proof.
  induction s as [|c s IH]; simpl; [exact I|].
  destruct (is_space c) eqn:E; simpl; [exact I|].
  destruct (span_nonspace s) as [r rest]; simpl in *. now split.
Qed.

Lemma nospace_app a b : nospace (a ++ b) <-> nospace a /\ nospace b.
Proof.
  induction a as [|c a IH]; ssimpl; [tauto|]. rewrite IH. tauto.
Qed.

Lemma upto_last_paren_sound r g :
  upto_last_paren r = Some g ->
  exists r', r = (g ++ String ")" r')%string.
Proof.
  revert g. induction r as [|c r IH]; simpl; intros g; [discriminate|].
  destruct (upto_last_paren r) as [g'|].
  - intros [= <-]. destruct (IH g' eq_refl) as [r' ->]. now exists r'.
  - destruct (Ascii.eqb c ")") eqn:E; [|discriminate].
    intros [= <-]. apply Ascii.eqb_eq in E. subst c. now exists r.
Qed.

Lemma upto_last_paren_app g r :
  exists g', upto_last_paren (g ++ String ")" r) = Some (g ++ g')%string.
Proof.
  induction g as [|c g [g' IH]]; ssimpl.
  - destruct (upto_last_paren r) as [g'|]; [exists (String ")" g')|exists ""];
      reflexivity.
  - rewrite IH. exists g'. reflexivity.
Qed.

Lemma upto_last_paren_closing g :
  upto_last_paren (g ++ ")") = Some g.
Proof.
  induction g as [|c g IH]; ssimpl; [reflexivity|]. now rewrite IH.
Qed.

Lemma try_at_sound s g1 g2 :
  try_at s = Some (g1, g2) ->
  exists post,
    s = (g1 ++ String " " (g2 ++ String ")" post))%string
    /\ g1 <> EmptyString /\ g2 <> EmptyString /\ nospace g1 /\ nospace g2.
Proof.
  unfold try_at. intros H.
  pose proof (span_nonspace_split s) as Hs.
  pose proof (span_nonspace_nospace s) as Hn.
  destruct (span_nonspace s) as [[|c r1] [|sp rest]]; try discriminate.
  simpl in Hs, Hn.
  destruct (is_space sp) eqn:Esp; [|discriminate].
  pose proof (span_nonspace_split rest) as Hs2.
  pose proof (span_nonspace_nospace rest) as Hn2.
  set (tl := snd (span_nonspace rest)) in *.
  destruct (upto_last_paren (fst (span_nonspace rest))) as [[|d r2]|] eqn:E;
    try discriminate.
  injection H as <- <-.
  apply upto_last_paren_sound in E. destruct E as [r' E].
  rewrite E in Hs2, Hn2. apply nospace_app in Hn2. destruct Hn2 as [Hn2 _].
  apply Ascii.eqb_eq in Esp. subst sp.
  exists (r' ++ tl)%string. simpl in Hn2.
  repeat split; try discriminate; try tauto.
  rewrite Hs, Hs2, sapp_assoc. reflexivity.
Qed.

Lemma try_at_complete g1 g2 post :
  g1 <> EmptyString -> g2 <> EmptyString -> nospace g1 -> nospace g2 ->
  exists m, try_at (g1 ++ String " " (g2 ++ String ")" post)) = Some m.
Proof.
  intros H1 H2 N1 N2. unfold try_at.
  rewrite (span_nonspace_app g1 _ N1). simpl.
  destruct g1 as [|c g1]; [contradiction|]. simpl.
  rewrite (span_nonspace_app g2 _ N2). simpl.
  destruct (span_nonspace post) as [r rest] eqn:Ep. simpl.
  destruct (upto_last_paren_app g2 r) as [g' ->].
  destruct g2 as [|d g2]; [contradiction|]. simpl. eauto.
Qed.

Lemma regex_match_sound s g1 g2 :
  regex_match s = Some (g1, g2) ->
  exists pre post,
    s = (pre ++ String "(" (g1 ++ String " " (g2 ++ String ")" post)))%string
    /\ g1 <> EmptyString /\ g2 <> EmptyString /\ nospace g1 /\ nospace g2.
Proof.
  induction s as [|c s IH]; simpl; [discriminate|].
  assert (Hrec : regex_match s = Some (g1, g2) ->
                 exists pre post,
                   String c s
                   = (pre ++ String "(" (g1 ++ String " " (g2 ++ String ")" post)))%string
                   /\ g1 <> EmptyString /\ g2 <> EmptyString
                   /\ nospace g1 /\ nospace g2).
  { intros H. destruct (IH H) as (pre & post & -> & Hr).
    exists (String c pre), post. split; [reflexivity|exact Hr]. }
  destruct (Ascii.eqb c "(") eqn:E; [|exact Hrec].
  destruct (try_at s) as [m|] eqn:T; [|exact Hrec].
  intros [= ->]. apply Ascii.eqb_eq in E. subst c.
  destruct (try_at_sound _ _ _ T) as (post & -> & Hr).
  exists EmptyString, post. split; [reflexivity|exact Hr].
Qed.

Lemma regex_match_complete s :
  has_point_shape s -> exists m, regex_match s = Some m.
Proof.
  intros (pre & g1 & g2 & post & -> & H1 & H2 & N1 & N2).
  induction pre as [|c pre IH]; simpl.
  - destruct (try_at_complete g1 g2 post H1 H2 N1 N2) as [m ->]. eauto.
  - destruct (Ascii.eqb c "("); [|exact IH].
    destruct (try_at _); eauto.
Qed.

Lemma regex_match_none_iff s :
  regex_match s = None <-> ~ has_point_shape s.
Proof.
  split.
  - intros H Hs. destruct (regex_match_complete s Hs) as [m Hm]. congruence.
  - intros H. destruct (regex_match s) as [[g1 g2]|] eqn:E; [|reflexivity].
    exfalso. apply H. destruct (regex_match_sound _ _ _ E) as (pre & post & Hs).
    now exists pre, g1, g2, post.
Qed.

(** The pattern on the text form proper: the groups are the two tokens. *)
Lemma regex_match_point t1 t2 :
  t1 <> EmptyString -> t2 <> EmptyString -> nospace t1 -> nospace t2 ->
  regex_match ("POINT(" ++ t1 ++ " " ++ t2 ++ ")") = Some (t1, t2).
Proof.
  intros H1 H2 N1 N2. rewrite !sapp_cons, !sapp_nil. simpl.
  assert (T : try_at (t1 ++ String " " (t2 ++ ")")) = Some (t1, t2)).
  { unfold try_at. rewrite (span_nonspace_app t1 _ N1). simpl.
    rewrite sapp_nil_r.
    destruct t1 as [|c t1]; [contradiction|].
    rewrite (span_nonspace_app t2 _ N2). simpl.
    rewrite upto_last_paren_closing.
    destruct t2 as [|d t2]; [contradiction|reflexivity]. }
  now rewrite T.
Qed.

(** ** Numbers *)

Lemma Qlt_bool_iff a b : Qlt_bool a b = true <-> (a < b)%Q.
Proof.
  unfold Qlt_bool. rewrite negb_true_iff, <- not_true_iff_false, Qle_bool_iff.
  split; [apply Qnot_le_lt | apply Qlt_not_le].
Qed.

Lemma Qlt_bool_false_iff a b : Qlt_bool a b = false <-> (b <= a)%Q.
Proof.
  unfold Qlt_bool. rewrite negb_false_iff. apply Qle_bool_iff.
Qed.

(** The sign of a difference of finite numbers is the order of its
    operands. *)
Lemma num_sub_gt0_fin x y :
  num_gt0 (num_sub (Fin x) (Fin y)) = true <-> (y < x)%Q.
Proof.
  simpl. rewrite Qlt_bool_iff, !Qred_correct. split; intros H; lra.
Qed.

Lemma num_sub_gt0_antisym a b :
  num_gt0 (num_sub a b) = true -> num_gt0 (num_sub b a) = false.
Proof.
  destruct a as [|s|x], b as [|t|y]; try (simpl; congruence);
    try (destruct s; simpl; congruence).
  - destruct s, t; simpl; congruence.
  - destruct t; simpl; congruence.
  - rewrite num_sub_gt0_fin. intros H.
    apply not_true_is_false. rewrite num_sub_gt0_fin. lra.
Qed.


(** ** The sort *)

Section ArraySortFacts.
Context {A : Type} (compareFn : A -> A -> number).

Hypothesis compareFn_antisym :
  forall a b, num_gt0 (compareFn a b) = true -> in_order compareFn b a.

Lemma sort_insert_perm x l : Permutation (sort_insert compareFn x l) (x :: l).
Proof.
  induction l as [|y l IH]; simpl; [reflexivity|].
  destruct (num_gt0 (compareFn x y)); [|reflexivity].
  rewrite IH. apply perm_swap.
Qed.

Lemma stable_sort_perm l : Permutation (stable_sort compareFn l) l.
Proof.
  induction l as [|x l IH]; simpl; [reflexivity|].
  rewrite sort_insert_perm. now constructor.
Qed.

Lemma sort_insert_sorted x l :
  Sorted (in_order compareFn) l -> Sorted (in_order compareFn) (sort_insert compareFn x l).
Proof using compareFn_antisym.
  induction l as [|y l IH]; simpl; intros Hs.
  - repeat constructor.
  - destruct (num_gt0 (compareFn x y)) eqn:E.
    + inversion Hs as [|? ? Hl Hd]; subst. constructor; [auto|].
      destruct l as [|z l]; simpl.
      * constructor. now apply compareFn_antisym.
      * destruct (num_gt0 (compareFn x z)); constructor.
        -- now inversion Hd.
        -- now apply compareFn_antisym.
    + constructor; [exact Hs|]. constructor. exact E.
Qed.

Lemma stable_sort_sorted l : Sorted (in_order compareFn) (stable_sort compareFn l).
Proof using compareFn_antisym.
  induction l as [|x l IH]; simpl; [constructor|].
  now apply sort_insert_sorted.
Qed.


(** An element that never compares greater stays where it is put... *)
Lemma sort_insert_inert x l :
  (forall y, in_order compareFn x y) -> sort_insert compareFn x l = x :: l.
Proof.
  intros Hx. destruct l as [|y l]; simpl; [reflexivity|]. now rewrite Hx.
Qed.

(** ... and one that nothing compares greater than is a barrier: the
    parts before and after it are sorted apart. *)
Lemma sort_insert_barrier x l1 u l2 :
  (forall y, in_order compareFn y u) ->
  sort_insert compareFn x (l1 ++ u :: l2)
  = sort_insert compareFn x l1 ++ u :: l2.
Proof.
  intros Hu. induction l1 as [|y l1 IH]; simpl.
  - now rewrite Hu.
  - destruct (num_gt0 (compareFn x y)); [|reflexivity]. now rewrite IH.
Qed.

Lemma stable_sort_barrier l1 u l2 :
  (forall y, in_order compareFn y u) -> (forall y, in_order compareFn u y) ->
  stable_sort compareFn (l1 ++ u :: l2)
  = stable_sort compareFn l1 ++ u :: stable_sort compareFn l2.
Proof.
  intros Hu Hu'. induction l1 as [|x l1 IH]; simpl.
  - now apply sort_insert_inert.
  - rewrite IH. now apply sort_insert_barrier.
Qed.




End ArraySortFacts.

(** ** The distance sort *)

Lemma byDistance_antisym a b :
  num_gt0 (byDistance a b) = true -> in_order byDistance b a.
Proof.
  unfold in_order, byDistance.
  destruct (distance a) as [da|], (distance b) as [db|]; simpl;
    try discriminate.
  apply num_sub_gt0_antisym.
Qed.

Lemma num_sub_nan_l b : num_sub NaN b = NaN.
Proof. reflexivity. Qed.

Lemma num_sub_nan_r a : num_sub a NaN = NaN.
Proof. now destruct a. Qed.

Lemma num_sub_lt0_gt0 a b : num_lt0 (num_sub a b) = num_gt0 (num_sub b a).
Proof.
  destruct a as [|s|x], b as [|t|y]; try reflexivity.
  - destruct s, t; reflexivity.
  - simpl. now destruct s.
  - simpl. apply eq_true_iff_eq.
    rewrite !Qlt_bool_iff, !Qred_correct. split; intros H; lra.
Qed.

(** A comparison with a place that has no distance, or a [NaN] one,
    answers neither "before" nor "after". *)
Lemma byDistance_incomparable a b :
  comparable a = false \/ comparable b = false ->
  num_gt0 (byDistance a b) = false /\ num_lt0 (byDistance a b) = false.
Proof.
  unfold comparable, byDistance.
  destruct (distance a) as [da|], (distance b) as [db|]; simpl; auto.
  intros [H|H]; apply negb_false_iff in H.
  - destruct da; try discriminate. now rewrite num_sub_nan_l.
  - destruct db; try discriminate. now rewrite num_sub_nan_r.
Qed.

Lemma byDistance_gt0_comparable a b :
  num_gt0 (byDistance a b) = true -> comparable a = true /\ comparable b = true.
Proof.
  intros H. destruct (comparable a) eqn:Ea, (comparable b) eqn:Eb; auto;
    exfalso;
    [ destruct (byDistance_incomparable a b (or_intror Eb)) as [H' _]
    | destruct (byDistance_incomparable a b (or_introl Ea)) as [H' _]
    | destruct (byDistance_incomparable a b (or_introl Ea)) as [H' _] ];
    congruence.
Qed.


Section ArraySortMore.
Context {A : Type} (compareFn : A -> A -> number).

Lemma stable_sort_sorted_id l :
  Sorted (in_order compareFn) l -> stable_sort compareFn l = l.
Proof.
  induction 1 as [|x l Hl IH Hd]; simpl; [reflexivity|].
  rewrite IH. destruct Hd as [|y l' Hxy]; simpl; [reflexivity|].
  unfold in_order in Hxy. now rewrite Hxy.
Qed.



End ArraySortMore.




Lemma comparable_spec p :
  comparable p = true <-> exists d, distance p = Some d /\ num_is_nan d = false.
Proof.
  unfold comparable. destruct (distance p) as [d|].
  - rewrite negb_true_iff. split; [intros H; now exists d|].
    now intros (d' & [= <-] & H).
  - split; [discriminate|]. now intros (d & H & _).
Qed.


(** ** Consistent comparators *)

Lemma num_lt0_gt0_excl n : num_lt0 n = true -> num_gt0 n = false.
Proof.
  destruct n as [|s|q]; simpl; try discriminate.
  - now intros ->.
  - rewrite Qlt_bool_iff, Qlt_bool_false_iff. apply Qlt_le_weak.
Qed.


Section Consistent.
Context {A : Type} (compareFn : A -> A -> number) (L : list A).
Hypothesis HL : consistent compareFn L.

Local Abbreviation G a b := (num_gt0 (compareFn a b)).
Local Abbreviation Lb a b := (num_lt0 (compareFn a b)).

Lemma cf_refl a : In a L -> Lb a a = false /\ G a a = false.
Proof using HL. intros Ha. exact (proj1 (proj2 (HL a a a Ha Ha Ha))). Qed.

Lemma cf_lt_gt a b : In a L -> In b L -> Lb a b = true -> G b a = true.
Proof using HL.
  intros Ha Hb H.
  destruct (HL a b a Ha Hb Ha) as (_ & _ & _ & _ & Hlt & _).
  destruct (HL b a a Hb Ha Ha) as (_ & _ & Hsym & _).
  destruct (cf_refl a Ha) as [Raa _].
  destruct (G b a) eqn:E; [reflexivity|exfalso].
  destruct (Lb b a) eqn:E'.
  - unfold cf_lt in Hlt. rewrite (Hlt H E') in Raa. discriminate.
  - destruct (Hsym (conj E' E)) as [X _]. rewrite H in X. discriminate.
Qed.

Lemma cf_gt_lt a b : In a L -> In b L -> G a b = true -> Lb b a = true.
Proof using HL.
  intros Ha Hb H.
  destruct (HL a b a Ha Hb Ha) as (_ & _ & _ & _ & _ & Hgt).
  destruct (HL b a a Hb Ha Ha) as (_ & _ & Hsym & _).
  destruct (cf_refl a Ha) as [_ Raa].
  destruct (Lb b a) eqn:E; [reflexivity|exfalso].
  destruct (G b a) eqn:E'.
  - unfold cf_gt in Hgt. rewrite (Hgt H E') in Raa. discriminate.
  - destruct (Hsym (conj E E')) as [_ X]. rewrite H in X. discriminate.
Qed.

Lemma cf_lt_is_gt a b : In a L -> In b L -> Lb a b = G b a.
Proof using HL.
  intros Ha Hb. apply eq_true_iff_eq. split.
  - now apply cf_lt_gt.
  - now apply cf_gt_lt.
Qed.

Lemma cf_gt_trans a b c :
  In a L -> In b L -> In c L -> G a b = true -> G b c = true -> G a c = true.
Proof using HL.
  intros Ha Hb Hc. exact (proj2 (proj2 (proj2 (proj2 (proj2 (HL a b c Ha Hb Hc)))))).
Qed.

Lemma cf_lt_trans a b c :
  In a L -> In b L -> In c L -> Lb a b = true -> Lb b c = true -> Lb a c = true.
Proof using HL.
  intros Ha Hb Hc. exact (proj1 (proj2 (proj2 (proj2 (proj2 (HL a b c Ha Hb Hc)))))).
Qed.

Lemma cf_le_trans a b c :
  In a L -> In b L -> In c L -> G a b = false -> G b c = false -> G a c = false.
Proof using HL.
  intros Ha Hb Hc Hab Hbc.
  destruct (G a c) eqn:Hac; [exfalso|reflexivity].
  pose proof (cf_gt_lt a c Ha Hc Hac) as Hca.
  destruct (HL a b c Ha Hb Hc) as (_ & _ & _ & Heq & _).
  destruct (HL a b a Ha Hb Ha) as (_ & _ & Hsab & _).
  destruct (HL b c b Hb Hc Hb) as (_ & _ & Hsbc & _).
  destruct (Lb a b) eqn:Lab, (Lb b c) eqn:Lbc.
  - pose proof (cf_lt_trans a b c Ha Hb Hc Lab Lbc) as X.
    apply num_lt0_gt0_excl in X. congruence.
  - pose proof (cf_lt_trans c a b Hc Ha Hb Hca Lab) as X.
    destruct (Hsbc (conj Lbc Hbc)) as [Y _]. congruence.
  - pose proof (cf_lt_trans b c a Hb Hc Ha Lbc Hca) as X.
    destruct (Hsab (conj Lab Hab)) as [Y _]. congruence.
  - destruct (Heq (conj Lab Hab) (conj Lbc Hbc)) as [_ X]. congruence.
Qed.

Lemma insert_right_perm x s : Permutation (insert_right compareFn x s) (x :: s).
Proof.
  induction s as [|y s IH]; simpl; [reflexivity|].
  destruct (Lb x y); [reflexivity|]. rewrite IH. apply perm_swap.
Qed.

(** Putting [a] in from the left and [x] from the right can be done in
    either order. *)
Lemma sort_insert_insert_right a x s :
  In a L -> In x L -> incl s L ->
  sort_insert compareFn a (insert_right compareFn x s)
  = insert_right compareFn x (sort_insert compareFn a s).
Proof using HL.
  intros Ha Hx. induction s as [|y s IH]; intros Hs.
  - simpl. rewrite (cf_lt_is_gt x a Hx Ha). now destruct (G a x).
  - assert (Hy : In y L) by (apply Hs; now left).
    assert (Hs' : incl s L) by (intros z Hz; apply Hs; now right).
    specialize (IH Hs'). simpl.
    destruct (Lb x y) eqn:Lxy, (G a y) eqn:Gay; simpl;
      rewrite ?Lxy, ?Gay.
    + assert (Gax : G a x = true).
      { apply (cf_gt_trans a y x); auto. now apply cf_lt_gt. }
      now rewrite Gax.
    + rewrite (cf_lt_is_gt x a Hx Ha).
      destruct (G a x); simpl; now rewrite ?Lxy, ?Gay.
    + now rewrite IH.
    + assert (Lxa : Lb x a = false).
      { rewrite (cf_lt_is_gt x a Hx Ha).
        apply (cf_le_trans a y x); auto.
        now rewrite <- (cf_lt_is_gt x y Hx Hy). }
      now rewrite Lxa, ?Lxy.
Qed.

Lemma stable_sort_incl l : incl l L -> incl (stable_sort compareFn l) L.
Proof.
  intros H z Hz. apply H.
  exact (Permutation_in _ (stable_sort_perm compareFn l) Hz).
Qed.

Lemma stable_sort_snoc l x :
  incl l L -> In x L ->
  stable_sort compareFn (l ++ [x])
  = insert_right compareFn x (stable_sort compareFn l).
Proof using HL.
  intros Hl Hx. induction l as [|a l IH]; simpl; [reflexivity|].
  assert (Ha : In a L) by (apply Hl; now left).
  assert (Hl' : incl l L) by (intros z Hz; apply Hl; now right).
  rewrite (IH Hl'). apply sort_insert_insert_right; auto.
  now apply stable_sort_incl.
Qed.

Lemma stable_sort_app p r :
  incl p L -> incl r L ->
  fold_left (fun s x => insert_right compareFn x s) r (stable_sort compareFn p)
  = stable_sort compareFn (p ++ r).
Proof using HL.
  revert p. induction r as [|x r IH]; intros p Hp Hr; simpl.
  - now rewrite app_nil_r.
  - assert (Hx : In x L) by (apply Hr; now left).
    assert (Hr' : incl r L) by (intros z Hz; apply Hr; now right).
    rewrite <- (stable_sort_snoc p x Hp Hx).
    rewrite IH; auto.
    + now rewrite <- app_assoc.
    + intros z Hz. apply in_app_or in Hz. destruct Hz as [Hz|[<-|[]]]; auto.
Qed.

(** The reference order is ascending throughout. *)
Lemma sort_insert_strongly_sorted a s :
  In a L -> incl s L ->
  StronglySorted (in_order compareFn) s ->
  StronglySorted (in_order compareFn) (sort_insert compareFn a s).
Proof using HL.
  intros Ha. induction s as [|y s IH]; intros Hs S; simpl.
  - repeat constructor.
  - assert (Hy : In y L) by (apply Hs; now left).
    assert (Hs' : incl s L) by (intros z Hz; apply Hs; now right).
    inversion S as [|? ? S' F]; subst.
    destruct (G a y) eqn:Gay.
    + constructor; [now apply IH|].
      apply Forall_forall. intros z Hz.
      apply (Permutation_in _ (sort_insert_perm compareFn a s)) in Hz.
      destruct Hz as [<-|Hz].
      * unfold in_order. apply num_lt0_gt0_excl. now apply cf_gt_lt.
      * now apply (proj1 (Forall_forall _ _) F).
    + constructor; [exact S|]. constructor; [exact Gay|].
      apply Forall_forall. intros z Hz. unfold in_order.
      apply (cf_le_trans a y z); auto.
      now apply (proj1 (Forall_forall _ _) F).
Qed.

Lemma stable_sort_strongly_sorted l :
  incl l L -> StronglySorted (in_order compareFn) (stable_sort compareFn l).
Proof using HL.
  induction l as [|a l IH]; intros Hl; simpl; [constructor|].
  assert (Hl' : incl l L) by (intros z Hz; apply Hl; now right).
  apply sort_insert_strongly_sorted; auto.
  - apply Hl. now left.
  - now apply stable_sort_incl.
Qed.








End Consistent.

(** ** The required order *)

Section RequiredOrder.
Context {A : Type} (compareFn : A -> A -> number).

Local Abbreviation G a b := (num_gt0 (compareFn a b)).
Local Abbreviation Lb a b := (num_lt0 (compareFn a b)).

Lemma same_class_iff a b : same_class compareFn a b = true <-> cf_eq compareFn a b.
Proof.
  unfold same_class, cf_eq. rewrite andb_true_iff, !negb_true_iff. tauto.
Qed.

Lemma consistent_incl l l' :
  incl l' l -> consistent compareFn l -> consistent compareFn l'.
Proof. intros Hi Hc a b c Ha Hb Hc'. apply Hc; now apply Hi. Qed.

Lemma sort_insert_filter_on (keep : A -> bool) x s :
  (forall y, In y s -> G x y = true -> keep x = false \/ keep y = false) ->
  List.filter keep (sort_insert compareFn x s) = List.filter keep (x :: s).
Proof.
  induction s as [|y s IH]; intros Hk; [reflexivity|].
  cbn [sort_insert]. destruct (G x y) eqn:E; [|reflexivity].
  cbn [List.filter]. rewrite IH by (intros z Hz; apply Hk; now right).
  cbn [List.filter].
  destruct (Hk y (or_introl eq_refl) E) as [-> | ->]; [reflexivity|].
  now destruct (keep x).
Qed.

(** Elements that never ask to pass one another keep their order. *)
Lemma stable_sort_filter_on (keep : A -> bool) l :
  (forall a b, In a l -> In b l -> G a b = true ->
               keep a = false \/ keep b = false) ->
  List.filter keep (stable_sort compareFn l) = List.filter keep l.
Proof.
  induction l as [|x l IH]; intros Hk; [reflexivity|].
  cbn [stable_sort fold_right]. fold (stable_sort compareFn l).
  rewrite sort_insert_filter_on.
  - cbn [List.filter]. rewrite IH; [reflexivity|].
    intros a b Ha Hb. apply Hk; now right.
  - intros y Hy. apply Hk; [now left|right].
    exact (Permutation_in _ (stable_sort_perm compareFn l) Hy).
Qed.

(** The reference order is the required one... *)
Lemma stable_sort_required l :
  consistent compareFn l -> required_order compareFn l (stable_sort compareFn l).
Proof.
  intros HL. split.
  - apply (stable_sort_strongly_sorted compareFn l HL). intros z Hz. exact Hz.
  - intros a Ha. apply stable_sort_filter_on. intros z1 z2 H1 H2 HG.
    destruct (same_class compareFn a z1) eqn:E1; [|now left].
    destruct (same_class compareFn a z2) eqn:E2; [|now right].
    exfalso. apply same_class_iff in E1, E2.
    destruct (HL a z1 z2 Ha H1 H2) as (_ & _ & Hsym & _).
    destruct (HL z1 a z2 H1 Ha H2) as (_ & _ & _ & Htr & _).
    destruct (Htr (Hsym E1) E2) as [_ X]. congruence.
Qed.

(** ... and there is no other. *)
Lemma required_order_unique r1 : forall r2,
  consistent compareFn r1 -> Permutation r1 r2 ->
  StronglySorted (in_order compareFn) r1 ->
  StronglySorted (in_order compareFn) r2 ->
  (forall a, In a r1 ->
     List.filter (same_class compareFn a) r1
     = List.filter (same_class compareFn a) r2) ->
  r1 = r2.
Proof.
  induction r1 as [|x r1 IH]; intros r2 HL Hp S1 S2 Hf.
  - now apply Permutation_nil in Hp.
  - destruct r2 as [|y r2].
    { symmetry in Hp. now apply Permutation_nil in Hp. }
    assert (Hx : In x (x :: r1)) by now left.
    assert (Hy : In y (x :: r1)).
    { apply (Permutation_in _ (Permutation_sym Hp)). now left. }
    inversion S1 as [|? ? S1' F1]; subst.
    inversion S2 as [|? ? S2' F2]; subst.
    destruct (cf_refl compareFn _ HL x Hx) as [Lxx Gxx].
    assert (Gxy : G x y = false).
    { destruct Hy as [<-|Hy]; [exact Gxx|].
      exact (proj1 (Forall_forall _ _) F1 y Hy). }
    assert (Gyx : G y x = false).
    { assert (Hx2 : In x (y :: r2)) by exact (Permutation_in _ Hp Hx).
      destruct Hx2 as [<-|Hx2]; [exact Gxx|].
      exact (proj1 (Forall_forall _ _) F2 x Hx2). }
    assert (Cxx : same_class compareFn x x = true).
    { unfold same_class. now rewrite Lxx, Gxx. }
    assert (Cxy : same_class compareFn x y = true).
    { unfold same_class.
      now rewrite (cf_lt_is_gt compareFn _ HL x y Hx Hy), Gyx, Gxy. }
    pose proof (Hf x Hx) as Hfx. cbn [List.filter] in Hfx.
    rewrite Cxx, Cxy in Hfx. injection Hfx as <- _.
    f_equal. apply IH; auto.
    + apply (consistent_incl (x :: r1)); [|exact HL].
      intros z Hz. now right.
    + exact (Permutation_cons_inv Hp).
    + intros a Ha. pose proof (Hf a (or_intror Ha)) as Hfa.
      cbn [List.filter] in Hfa.
      destruct (same_class compareFn a x); [now injection Hfa|exact Hfa].
Qed.

End RequiredOrder.

(** An engine that meets the requirements gives the reference order for a
    consistent comparator. *)
Lemma conforms_stable_sort (E : SortEngine) :
  conforms E ->
  forall (A : Type) (compareFn : A -> A -> number) (l : list A),
    consistent compareFn l -> Array_sort compareFn l = stable_sort compareFn l.
Proof.
  intros HE A compareFn l HL.
  destruct (HE A compareFn l) as [Hp Hr].
  destruct (Hr HL) as [S1 F1].
  destruct (stable_sort_required compareFn l HL) as [S2 F2].
  apply (required_order_unique compareFn); auto.
  - apply (consistent_incl compareFn l); [|exact HL].
    intros z Hz. exact (Permutation_in _ Hp Hz).
  - rewrite Hp. symmetry. apply stable_sort_perm.
  - intros a Ha. rewrite F1, F2; [reflexivity| |];
      exact (Permutation_in _ Hp Ha).
Qed.

Lemma reference_engine_conforms : conforms reference_engine.
Proof.
  intros A compareFn l. split; [apply stable_sort_perm|].
  apply stable_sort_required.
Qed.

(** ** V8's short path sorts as ECMAScript requires *)

Section V8Short.
Context {A : Type} (compareFn : A -> A -> number).

Local Abbreviation G a b := (num_gt0 (compareFn a b)).
Local Abbreviation Lb a b := (num_lt0 (compareFn a b)).











End V8Short.



Lemma num_sub_lt0_fin x y :
  num_lt0 (num_sub (Fin x) (Fin y)) = true <-> (x < y)%Q.
Proof. rewrite num_sub_lt0_gt0. apply num_sub_gt0_fin. Qed.

(** On places that all have a finite distance the comparator is a
    consistent one... *)
Lemma consistent_finite l :
  Forall (fun p => has_finite_distance p = true) l -> consistent byDistance l.
Proof.
  intros H a b c Ha Hb Hc. rewrite Forall_forall in H.
  pose proof (H a Ha) as Fa. pose proof (H b Hb) as Fb.
  pose proof (H c Hc) as Fc.
  unfold has_finite_distance in Fa, Fb, Fc.
  unfold cf_eq, cf_lt, cf_gt, byDistance.
  destruct (distance a) as [[| |x]|]; try discriminate.
  destruct (distance b) as [[| |y]|]; try discriminate.
  destruct (distance c) as [[| |z]|]; try discriminate.
  split; [reflexivity|].
  rewrite <- !not_true_iff_false, !num_sub_lt0_fin, !num_sub_gt0_fin.
  repeat split; intros; lra.
Qed.



Lemma consistent_perm {A} (compareFn : A -> A -> number) l l' :
  Permutation l l' -> consistent compareFn l -> consistent compareFn l'.
Proof.
  intros Hp Hc a b c Ha Hb Hc'. apply Hc; eapply Permutation_in;
    try (symmetry; exact Hp); assumption.
Qed.






(** On these places, all with a finite distance, V8's short path gives
    the required order too. *)
Example sortStep_V8_finite :
  sortStep (E := V8_short_arrays)
    [place_far; place_mid_twin; place_near; place_mid]
  = [place_near; place_mid_twin; place_mid; place_far].
Proof. reflexivity. Qed.



(** ** The coordinate parser *)

Lemma startsWith_nonempty s : startsWith s "POINT" = true -> nonempty s = true.
Proof. now destruct s. Qed.

Lemma parseLocation_none_iff l : parseLocation l = None <-> not_point_text l.
Proof.
  destruct l as [|s|c]; simpl; try tauto.
  destruct (startsWith s "POINT") eqn:E.
  - rewrite (startsWith_nonempty s E). simpl.
    destruct (regex_match s) as [[m1 m2]|] eqn:R.
    + split; [discriminate|]. intros H. exfalso. apply H. split; [reflexivity|].
      destruct (regex_match_sound _ _ _ R) as (pre & post & Hs).
      now exists pre, m1, m2, post.
    + split; [|reflexivity]. intros _ [_ H].
      now apply regex_match_none_iff in R.
  - split; [intros _ [H _]; discriminate|].
    now destruct (negb (nonempty s)).
Qed.

(** C4 (as amended).  The parser yields "no coordinate" exactly for the
    inputs that are not a POINT text: an absent value, a structured object,
    and any text that does not start with POINT or has no parenthesised
    pair of space-free tokens; the distance of a place is undefined exactly
    when the user coordinate is missing or the parser yields "no
    coordinate".  The tokens are not required to be numerals. *)
Theorem parseLocation_no_coordinate (M : MathLib) (u : option LatLng)
    (p : Place) :
  (parseLocation (loc p) = None <-> not_point_text (loc p))
  /\ (distance (annotate u p) = None
      <-> u = None \/ parseLocation (loc p) = None).
Proof.
  split; [apply parseLocation_none_iff|].
  unfold annotate. simpl.
  destruct u as [u|], (parseLocation (loc p)) as [q|]; simpl;
    split; auto; try discriminate.
  intros [H|H]; discriminate.
Qed.

(** C4 (as stated) fails on POINT text whose tokens are not numerals: the
    pattern matches, and the parser yields a pair of NaN. *)
Lemma parseLocation_non_numeral_counterexample :
  parseLocation (LText "POINT(abc def)") = Some {| lat := NaN; lng := NaN |}
  /\ parseLocation (LText "POINT(abc def)") <> None.
Proof. split; [reflexivity|discriminate]. Qed.

(** Malformed texts the pattern rejects. *)
Example parseLocation_rejects :
  parseLocation (LText "POINT(1,2)") = None
  /\ parseLocation (LText "POINT 1 2") = None
  /\ parseLocation (LText "POINT(1 2") = None
  /\ parseLocation (LText "POINT( 1 2)") = None
  /\ parseLocation (LText "0101000020E6100000") = None
  /\ parseLocation (LText "") = None
  /\ parseLocation (LStructured [Fin 120; Fin 22]) = None
  /\ parseLocation LAbsent = None.
Proof. repeat split; reflexivity. Qed.

(** C5.  The parser on "POINT(120.334 22.56)" yields lng 120.334 and lat
    22.56; on every text POINT(<t1> <t2>) with non-empty space-free tokens
    the first token is read into [lng] and the second into [lat]. *)
Theorem parseLocation_point :
  parseLocation (LText "POINT(120.334 22.56)")
  = Some {| lat := Fin (Qred (2256 # 100)); lng := Fin (Qred (120334 # 1000)) |}
  /\ forall t1 t2,
      nonempty t1 = true -> nonempty t2 = true -> nospace t1 -> nospace t2 ->
      parseLocation (LText ("POINT(" ++ t1 ++ " " ++ t2 ++ ")"))
      = Some {| lat := parseFloat t2; lng := parseFloat t1 |}.
Proof.
  split; [reflexivity|].
  intros t1 t2 H1 H2 N1 N2. unfold parseLocation.
  rewrite regex_match_point; auto.
  - now destruct t1.
  - now destruct t2.
Qed.

Lemma parseLocation_point_witness :
  parseLocation (LText ("POINT(" ++ "-64.5" ++ " " ++ "1e1" ++ ")"))
  = Some {| lat := Fin 10; lng := Fin (-129 # 2) |}.
Proof.
  destruct parseLocation_point as [_ H].
  rewrite (H "-64.5" "1e1"); [reflexivity|reflexivity|reflexivity| |];
    simpl; tauto.
Defined.

(** ** The search filter *)

Lemma prefix_spec t s :
  String.prefix t s = true <-> exists post, s = (t ++ post)%string.
Proof.
  revert s. induction t as [|a t IH]; intros s.
  - split; [intros _; now exists s|intros _; now destruct s].
  - destruct s as [|b s]; simpl.
    + split; [discriminate|]. intros [post H]. discriminate.
    + destruct (ascii_dec a b) as [->|Hne].
      * rewrite IH. split; intros [post H]; exists post.
        -- now rewrite sapp_cons, H.
        -- rewrite sapp_cons in H. now injection H.
      * split; [discriminate|]. intros [post H]. rewrite sapp_cons in H.
        injection H as H _. congruence.
Qed.

Lemma includes_nil t : includes "" t = String.prefix t "".
Proof. apply orb_false_r. Qed.

Lemma includes_cons c s t :
  includes (String c s) t = String.prefix t (String c s) || includes s t.
Proof. reflexivity. Qed.

Lemma includes_spec s t :
  includes s t = true <-> exists pre post, s = (pre ++ t ++ post)%string.
Proof.
  induction s as [|c s IH].
  - rewrite includes_nil, prefix_spec. split.
    + intros [post H]. now exists EmptyString, post.
    + intros ([|x pre] & post & H); [|discriminate]. now exists post.
  - rewrite includes_cons, orb_true_iff, prefix_spec, IH. split.
    + intros [[post H]|(pre & post & H)].
      * now exists EmptyString, post.
      * exists (String c pre), post. now rewrite sapp_cons, H.
    + intros ([|x pre] & post & H).
      * left. now exists post.
      * right. rewrite sapp_cons in H. injection H as _ H. now exists pre, post.
Qed.

Lemma includes_empty s : includes s "" = true.
Proof. destruct s; reflexivity. Qed.

Lemma search_predicate_spec p term :
  includes (toLowerCase (name p)) (toLowerCase term)
  || tags_some_include p (toLowerCase term) = true
  <-> matches_search p term.
Proof.
  unfold matches_search, ci_contains, tags_some_include.
  rewrite orb_true_iff, includes_spec.
  apply or_iff_compat_l.
  destruct (metadata_tags p) as [ts|].
  - rewrite existsb_exists. split.
    + intros (t & Hin & H). apply includes_spec in H. now exists ts, t.
    + intros (ts' & t & [= <-] & Hin & H). exists t. split; [exact Hin|].
      now apply includes_spec.
  - split; [discriminate|]. intros (ts & t & H & _). discriminate.
Qed.

(** C7 (as amended).  With a non-empty term the search step keeps, in
    their order, exactly the places whose name contains the term or that
    have a tag containing it, letter case aside; with the empty term it
    keeps every place.  The earlier page applies the same test to every
    term, next to its category test.  A term made of white space only is a
    term like any other. *)
Theorem searchStep_spec (term : string) (result : list Place) :
  (nonempty term = true ->
   (exists keep,
       (forall p, keep p = true <-> matches_search p term)
       /\ searchStep term result = List.filter keep result)
   /\ (forall p, In p (searchStep term result)
                 <-> In p result /\ matches_search p term))
  /\ searchStep "" result = result
  /\ (forall cat p,
         In p (Legacy.filteredPlaces result term cat)
         <-> In p result /\ matches_search p term
             /\ (cat = "all" \/ category p = cat)).
Proof.
  split; [|split].
  - intros Hne. unfold searchStep. rewrite Hne. split.
    + eexists. split; [|reflexivity]. intros p. apply search_predicate_spec.
    + intros p. rewrite filter_In, search_predicate_spec. reflexivity.
  - reflexivity.
  - intros cat p. unfold Legacy.filteredPlaces.
    rewrite filter_In, andb_true_iff, search_predicate_spec, orb_true_iff.
    rewrite !String.eqb_eq. reflexivity.
Qed.

Lemma searchStep_spec_witness :
  searchStep "temple" [place_temple_cafe; place_bakery; place_x]
  = [place_temple_cafe; place_x]
  /\ matches_search place_temple_cafe "temple"
  /\ matches_search place_x "temple".
Proof.
  split; [reflexivity|].
  destruct (searchStep_spec "temple" [place_temple_cafe; place_bakery; place_x])
    as [H _].
  destruct (H eq_refl) as [_ Hin].
  split; apply Hin; simpl; tauto.
Defined.

(** C7 (as stated) fails for a term of white space only: the term " " is
    searched for like any other and drops a place with no space in its
    name or tags. *)
Lemma searchStep_whitespace_counterexample :
  searchStep " " [place_x] = [] /\ searchStep " " [place_x] <> [place_x].
Proof. split; [reflexivity|discriminate]. Qed.

(** The earlier page on the empty term: only its category test is left. *)
Lemma filteredPlaces_empty_term result cat :
  Legacy.filteredPlaces result "" cat
  = List.filter
      (fun p => String.eqb cat "all" || String.eqb (category p) cat) result.
Proof.
  unfold Legacy.filteredPlaces. apply filter_ext. intros p. simpl.
  now rewrite includes_empty.
Qed.

(** ** Tag vocabulary *)

Lemma filter_filter_comm {A} (f g : A -> bool) l :
  List.filter f (List.filter g l) = List.filter g (List.filter f l).
Proof.
  induction l as [|x l IH]; simpl; [reflexivity|].
  destruct (f x) eqn:F, (g x) eqn:G; simpl; rewrite ?F, ?G, IH; reflexivity.
Qed.

Lemma filter_absorb {A} (f g : A -> bool) l :
  (forall x, f x = true -> g x = true) ->
  List.filter f (List.filter g l) = List.filter f l.
Proof.
  intros H. induction l as [|x l IH]; simpl; [reflexivity|].
  destruct (g x) eqn:G; simpl.
  - now rewrite IH.
  - destruct (f x) eqn:F; [|exact IH]. apply H in F. congruence.
Qed.

Lemma first_seen_filter (f : string -> bool) l :
  first_seen (List.filter f l) = List.filter f (first_seen l).
Proof.
  induction l as [|x l IH]; simpl; [reflexivity|].
  destruct (f x) eqn:F; simpl.
  - now rewrite IH, filter_filter_comm.
  - rewrite IH. symmetry. apply filter_absorb. intros y Hy.
    apply negb_true_iff. apply not_true_is_false. intros E.
    apply String.eqb_eq in E. congruence.
Qed.

Lemma first_seen_In x l : In x (first_seen l) <-> In x l.
Proof.
  induction l as [|y l IH]; simpl; [tauto|].
  rewrite filter_In, IH, negb_true_iff.
  destruct (String.eqb_spec y x) as [->|Hne]; [tauto|].
  intuition congruence.
Qed.

Lemma first_seen_NoDup l : NoDup (first_seen l).
Proof.
  induction l as [|x l IH]; simpl; constructor.
  - rewrite filter_In, String.eqb_refl. intros [_ H]. discriminate.
  - now apply NoDup_filter.
Qed.

Lemma first_seen_id l : NoDup l -> first_seen l = l.
Proof.
  induction 1 as [|x l Hx _ IH]; simpl; [reflexivity|].
  rewrite IH. f_equal. apply forallb_filter_id. apply forallb_forall.
  intros y Hy. apply negb_true_iff. apply not_true_is_false. intros E.
  apply String.eqb_eq in E. congruence.
Qed.

Lemma first_seen_seen a x l :
  In x a -> first_seen (a ++ x :: l) = first_seen (a ++ l).
Proof.
  induction a as [|y a IH]; simpl; [tauto|].
  intros [->|Hin]; [|now rewrite IH].
  f_equal. rewrite <- !first_seen_filter, !filter_app. simpl.
  now rewrite String.eqb_refl.
Qed.

Lemma existsb_eqb_In t s : existsb (String.eqb t) s = true <-> In t s.
Proof.
  rewrite existsb_exists. split.
  - intros (y & Hy & E). apply String.eqb_eq in E. now subst.
  - intros H. exists t. now rewrite String.eqb_refl.
Qed.

Lemma Set_add_NoDup s t : NoDup s -> NoDup (Set_add s t).
Proof.
  intros H. unfold Set_add. destruct (existsb (String.eqb t) s) eqn:E; [exact H|].
  apply NoDup_app; [exact H|repeat constructor; auto|].
  intros x Hx [<-|[]]. apply existsb_eqb_In in Hx. congruence.
Qed.

Lemma fold_Set_add_NoDup ts acc :
  NoDup acc -> NoDup (fold_left Set_add ts acc).
Proof.
  revert acc. induction ts as [|t ts IH]; intros acc Hacc; simpl; [exact Hacc|].
  apply IH. now apply Set_add_NoDup.
Qed.

(** The set filled from [acc] on is the first-seen list of what went in. *)
Lemma fold_Set_add ts acc :
  NoDup acc -> fold_left Set_add ts acc = first_seen (acc ++ ts).
Proof.
  revert acc. induction ts as [|t ts IH]; intros acc Hacc; simpl.
  - rewrite app_nil_r. symmetry. now apply first_seen_id.
  - rewrite (IH _ (Set_add_NoDup acc t Hacc)).
    unfold Set_add. destruct (existsb (String.eqb t) acc) eqn:E.
    + apply existsb_eqb_In in E. symmetry. now apply first_seen_seen.
    + now rewrite <- app_assoc.
Qed.

Lemma filter_first_seen_inner (f : string -> bool) u r :
  List.filter f (first_seen (List.filter f u ++ r))
  = List.filter f (first_seen (u ++ r)).
Proof.
  rewrite <- !first_seen_filter, !filter_app.
  now rewrite (filter_absorb f f u (fun y H => H)).
Qed.

Lemma first_seen_app_idem a r :
  first_seen (first_seen a ++ r) = first_seen (a ++ r).
Proof.
  induction a as [|x a IH]; simpl; [reflexivity|]. f_equal.
  now rewrite filter_first_seen_inner, IH.
Qed.

Lemma filter_filter_andb {A} (f g : A -> bool) l :
  List.filter f (List.filter g l) = List.filter (fun y => g y && f y) l.
Proof.
  induction l as [|x l IH]; simpl; [reflexivity|].
  destruct (g x); simpl; [destruct (f x)|]; now rewrite IH.
Qed.

Lemma first_seen_app a b :
  first_seen (a ++ b)
  = first_seen a
    ++ List.filter (fun y => negb (existsb (String.eqb y) a)) (first_seen b).
Proof.
  induction a as [|x a IH]; simpl.
  - symmetry. apply forallb_filter_id. now apply forallb_forall.
  - f_equal. rewrite IH, filter_app, filter_filter_andb. f_equal.
    apply filter_ext. intros y. rewrite (String.eqb_sym y x).
    now destruct (String.eqb x y), (existsb (String.eqb y) a).
Qed.

(** A value stands right after the distinct values that come before its
    first occurrence. *)
Lemma first_seen_order a x b :
  ~ In x a ->
  exists rest, first_seen (a ++ x :: b) = first_seen a ++ x :: rest.
Proof.
  intros Hx. rewrite first_seen_app. simpl.
  destruct (existsb (String.eqb x) a) eqn:E.
  - apply existsb_eqb_In in E. contradiction.
  - simpl. eauto.
Qed.

(** [availableTags] computes its contract. *)
Lemma availableTags_refines places activeCategory :
  availableTags places activeCategory = availableTags_spec places activeCategory.
Proof.
  unfold availableTags, availableTags_spec, category_tags. f_equal.
  generalize (List.filter (fun p => String.eqb (category p) activeCategory) places).
  intros l.
  assert (H : forall acc, NoDup acc ->
            fold_left
              (fun acc p =>
                 match metadata_tags p with
                 | Some ts => fold_left Set_add ts acc
                 | None => acc
                 end) l acc
            = first_seen
                (acc ++ flat_map
                          (fun p => match metadata_tags p with
                                    | Some ts => ts
                                    | None => []
                                    end) l)).
  { induction l as [|p l IH]; intros acc Hacc; simpl.
    - rewrite app_nil_r. symmetry. now apply first_seen_id.
    - destruct (metadata_tags p) as [ts|]; simpl.
      + rewrite IH by now apply fold_Set_add_NoDup.
        rewrite (fold_Set_add ts acc Hacc), first_seen_app_idem.
        now rewrite app_assoc.
      + now apply IH. }
  apply (H [] (NoDup_nil _)).
Qed.

Lemma category_tags_In t places activeCategory :
  In t (category_tags places activeCategory)
  <-> exists p ts,
        In p places /\ category p = activeCategory
        /\ metadata_tags p = Some ts /\ In t ts.
Proof.
  unfold category_tags. rewrite in_flat_map. split.
  - intros (p & Hp & Ht). apply filter_In in Hp. destruct Hp as [Hp Hc].
    apply String.eqb_eq in Hc.
    destruct (metadata_tags p) as [ts|] eqn:E; [|contradiction].
    now exists p, ts.
  - intros (p & ts & Hp & Hc & E & Ht). exists p. rewrite E. split; [|exact Ht].
    apply filter_In. split; [exact Hp|]. now apply String.eqb_eq.
Qed.

(** C8.  The tag vocabulary is the list of the tags of the places of the
    active category, each tag once at the place of its first occurrence,
    cut after 15 entries: it has no duplicates and at most 15 entries,
    every entry is a tag of a place of that category, a tag stands right
    after the distinct tags seen before its first occurrence, and the
    vocabulary is the same whatever the search term and the active tag
    are. *)
Theorem availableTags_contract (places : list Place) (activeCategory : string) :
  availableTags places activeCategory
  = firstn 15 (first_seen (category_tags places activeCategory))
  /\ NoDup (availableTags places activeCategory)
  /\ List.length (availableTags places activeCategory)
     = Nat.min 15 (List.length (first_seen (category_tags places activeCategory)))
  /\ (forall t,
         In t (availableTags places activeCategory) ->
         exists p ts,
           In p places /\ category p = activeCategory
           /\ metadata_tags p = Some ts /\ In t ts)
  /\ (forall a x b,
         category_tags places activeCategory = a ++ x :: b -> ~ In x a ->
         exists rest,
           first_seen (category_tags places activeCategory)
           = first_seen a ++ x :: rest)
  /\ (forall s v,
         availableTagsOf (handle (ChangeSearch v) s) = availableTagsOf s
         /\ availableTagsOf (handle (ClickTag v) s) = availableTagsOf s
         /\ availableTagsOf (handle ClickAllTags s) = availableTagsOf s).
Proof.
  pose proof (availableTags_refines places activeCategory) as E.
  unfold availableTags_spec in E. rewrite E.
  split; [reflexivity|]. split; [|split; [|split; [|split]]].
  - pose proof (first_seen_NoDup (category_tags places activeCategory)) as H.
    rewrite <- (firstn_skipn 15) in H. now apply NoDup_app_remove_r in H.
  - apply length_firstn.
  - intros t Ht. apply category_tags_In. apply first_seen_In.
    rewrite <- (firstn_skipn 15). apply in_or_app. now left.
  - intros a x b -> Hx. now apply first_seen_order.
  - intros s v. repeat split.
Qed.

Lemma availableTags_contract_witness :
  availableTags eighteen_tags "food"
  = ["a"; "b"; "c"; "d"; "e"; "f"; "g"; "h"; "i"; "j"; "k"; "l"; "m"; "n"; "o"]
  /\ List.length (first_seen (category_tags eighteen_tags "food")) = 18%nat
  /\ exists p ts,
       In p eighteen_tags /\ category p = "food"
       /\ metadata_tags p = Some ts /\ In "o" ts.
Proof.
  split; [reflexivity|]. split; [reflexivity|].
  destruct (availableTags_contract eighteen_tags "food") as (_ & _ & _ & H & _ & _).
  apply H. simpl. tauto.
Defined.

(** ** Pagination *)

Lemma visiblePlaces_length processed page :
  List.length (visiblePlaces processed page)
  = Nat.min (page * PAGE_SIZE) (List.length processed).
Proof. apply length_firstn. Qed.

(** C9.  The visible list is the first [PAGE_SIZE * page] entries of the
    processed list, with [PAGE_SIZE] 30; the remaining count is the total
    minus the visible count; the "load more" control is shown while
    something remains.  With 75 entries, page 1 shows 30, page 2 shows 60,
    page 3 shows all 75 and nothing remains. *)
Theorem pagination_spec (processed : list Place) (page : nat) :
  PAGE_SIZE = 30%nat
  /\ visiblePlaces processed page = firstn (PAGE_SIZE * page) processed
  /\ visiblePlaces processed page ++ skipn (PAGE_SIZE * page) processed
     = processed
  /\ remainingCount processed page
     = (Z.of_nat (List.length processed)
        - Z.of_nat (List.length (visiblePlaces processed page)))%Z
  /\ remainingCount processed page
     = Z.max 0 (Z.of_nat (List.length processed) - 30 * Z.of_nat page)%Z
  /\ (showLoadMore processed page = true
      <-> (0 < remainingCount processed page)%Z)
  /\ (List.length processed = 75%nat ->
      List.length (visiblePlaces processed 1) = 30%nat
      /\ List.length (visiblePlaces processed 2) = 60%nat
      /\ visiblePlaces processed 3 = processed
      /\ remainingCount processed 3 = 0%Z
      /\ showLoadMore processed 3 = false).
Proof.
  assert (Hv : visiblePlaces processed page = firstn (PAGE_SIZE * page) processed).
  { unfold visiblePlaces. now rewrite Nat.mul_comm. }
  split; [reflexivity|]. split; [exact Hv|]. split; [|split; [|split; [|split]]].
  - rewrite Hv. apply firstn_skipn.
  - reflexivity.
  - unfold remainingCount. rewrite visiblePlaces_length. unfold PAGE_SIZE. lia.
  - unfold showLoadMore, remainingCount. rewrite Nat.ltb_lt. lia.
  - intros H75.
    assert (H3 : visiblePlaces processed 3 = processed).
    { unfold visiblePlaces. apply firstn_all2. rewrite H75. unfold PAGE_SIZE. lia. }
    unfold showLoadMore, remainingCount. rewrite H3, !visiblePlaces_length, H75.
    rewrite Nat.ltb_irrefl. unfold PAGE_SIZE. repeat split; lia.
Qed.

Lemma pagination_spec_witness :
  List.length (visiblePlaces (repeat place_near 75) 1) = 30%nat
  /\ List.length (visiblePlaces (repeat place_near 75) 2) = 60%nat
  /\ visiblePlaces (repeat place_near 75) 3 = repeat place_near 75
  /\ remainingCount (repeat place_near 75) 3 = 0%Z
  /\ showLoadMore (repeat place_near 75) 3 = false.
Proof.
  destruct (pagination_spec (repeat place_near 75) 1) as (_ & _ & _ & _ & _ & _ & H).
  apply H. reflexivity.
Defined.

(** ** Page state *)

(** Selecting a category sets page 1 and clears the tag. *)
Lemma handle_ClickCategory s cat_id :
  activeCategory (handle (ClickCategory cat_id) s) = cat_id
  /\ activeTag (handle (ClickCategory cat_id) s) = ""
  /\ page (handle (ClickCategory cat_id) s) = 1%nat.
Proof. repeat split. Qed.

(** The page starts at 1 and "load more" adds one. *)
Lemma handle_ClickLoadMore s :
  page initialState = 1%nat
  /\ page (handle ClickLoadMore s) = (page s + 1)%nat.
Proof. split; reflexivity. Qed.

(** The handlers of the search box and of the tag chips leave the page
    as it is. *)
Lemma handle_search_tag_page s v :
  page (handle (ChangeSearch v) s) = page s
  /\ page (handle (ClickTag v) s) = page s
  /\ page (handle ClickAllTags s) = page s.
Proof. repeat split. Qed.

(** C3, on the code: after one "load more" the page is 2, and typing a
    search term or picking a tag leaves it at 2; picking a category sets
    it to 1. *)
Theorem search_and_tag_do_not_reset_page :
  let s := run [FetchSucceeded eighteen_tags; ClickLoadMore] initialState in
  page s = 2%nat
  /\ page (handle (ChangeSearch "tea") s) = 2%nat
  /\ page (handle (ClickTag "a") s) = 2%nat
  /\ page (handle (ClickCategory "dive") s) = 1%nat.
Proof. repeat split. Qed.

(** ** The distance badge *)

Lemma num_truthy_iff v :
  num_truthy v = true <-> v <> NaN /\ ~ num_is_zero v.
Proof.
  destruct v as [|s|q]; simpl.
  - split; [discriminate|]. intros [H _]. congruence.
  - split; [|reflexivity]. intros _. split; [discriminate|tauto].
  - unfold is_zero. rewrite negb_true_iff, <- not_true_iff_false, Qeq_bool_iff.
    split; [intros H; split; [discriminate|exact H]|tauto].
Qed.

(** C10.  The badge is put on a card only when the place has a distance
    and that distance is not zero (nor NaN); at distance exactly 0 there
    is no badge: the guard passes the number itself on. *)
Theorem distance_badge_guard (place : Place) :
  (forall km,
      distanceSlot place = SlotBadge km ->
      distance place = Some km /\ km <> NaN /\ ~ num_is_zero km)
  /\ (badgeShown place = true
      <-> exists d, distance place = Some d /\ d <> NaN /\ ~ num_is_zero d)
  /\ (forall d,
         distance place = Some d -> num_is_zero d ->
         badgeShown place = false /\ distanceSlot place = SlotNumber d)
  /\ (distance place = None -> badgeShown place = false).
Proof.
  unfold badgeShown, distanceSlot.
  destruct (distance place) as [d|] eqn:E.
  - destruct (num_truthy d) eqn:T.
    + pose proof (proj1 (num_truthy_iff d) T) as [Hn Hz].
      split; [|split; [|split]].
      * intros km [= <-]. auto.
      * split; [intros _; now exists d|reflexivity].
      * intros d' [= <-] Hz'. contradiction.
      * discriminate.
    + assert (F : ~ (d <> NaN /\ ~ num_is_zero d)).
      { intros H. apply num_truthy_iff in H. congruence. }
      split; [|split; [|split]].
      * discriminate.
      * split; [discriminate|]. intros (d' & [= <-] & H). tauto.
      * intros d' [= <-] _. split; reflexivity.
      * discriminate.
  - split; [|split; [|split]]; try discriminate.
    + split; [discriminate|]. intros (d & H & _). discriminate.
    + reflexivity.
Qed.

Lemma distance_badge_guard_witness :
  (distance place_near = Some (Fin 1) /\ Fin 1 <> NaN /\ ~ num_is_zero (Fin 1))
  /\ (badgeShown place_here = false
      /\ distanceSlot place_here = SlotNumber (Fin 0)).
Proof.
  split.
  - destruct (distance_badge_guard place_near) as [H _]. now apply H.
  - destruct (distance_badge_guard place_here) as (_ & _ & H & _).
    apply H; reflexivity.
Defined.

(** ** Derived views and the fetched records *)

Lemma cardTagsH_frame place h : snd (cardTagsH place h) = h.
Proof. unfold cardTagsH. now destruct (Legacy.obj_tags place). Qed.

(** [getTags] on a record with a subcategory and a tags array: the array
    of the record itself gets the subcategory in front. *)
Lemma getTags_unshifts place r sub ts (h : Legacy.heap) :
  Legacy.obj_tags place = Some r ->
  Legacy.obj_subcategory place = Some sub ->
  nonempty sub = true ->
  h !! r = Some ts ->
  Legacy.tags_of place (snd (Legacy.getTags place h)) = Some (sub :: ts)
  /\ fst (Legacy.getTags place h) = firstn 3 (sub :: ts).
Proof.
  intros Hr Hs Hne Hts.
  unfold Legacy.getTags, Legacy.tags_of, mbind, Legacy.Heap_bind, mret,
    Legacy.Heap_ret, Legacy.unshift, Legacy.slice0.
  rewrite Hr, Hs, Hne. simpl.
  rewrite lookup_alter_eq, Hts. split; reflexivity.
Qed.

(** C2, on the code of the earlier page: producing the tags of a card
    writes to the record.  The record's own tags array is
    [["beach"; "sunset"]] before [getTags] and
    [["cafe"; "beach"; "sunset"]] after it, and a second rendering shows
    the subcategory twice. *)
Theorem getTags_mutates_record :
  Legacy.tags_of obj0 heap0 = Some ["beach"; "sunset"]
  /\ fst (Legacy.getTags obj0 heap0) = ["cafe"; "beach"; "sunset"]
  /\ Legacy.tags_of obj0 (snd (Legacy.getTags obj0 heap0))
     = Some ["cafe"; "beach"; "sunset"]
  /\ fst (Legacy.getTags obj0 (snd (Legacy.getTags obj0 heap0)))
     = ["cafe"; "cafe"; "beach"]
  /\ snd (cardTagsH obj0 heap0) = heap0.
Proof.
  assert (H0 : heap0 !! 0%nat = Some ["beach"; "sunset"]) by reflexivity.
  destruct (getTags_unshifts obj0 0%nat "cafe" _ heap0 eq_refl eq_refl eq_refl H0)
    as [H1 H2].
  split; [exact H0|]. split; [exact H2|]. split; [exact H1|].
  split; [|apply cardTagsH_frame].
  destruct (getTags_unshifts obj0 0%nat "cafe" _ _ eq_refl eq_refl eq_refl H1)
    as [_ H3].
  exact H3.
Qed.

(** ** The distance formula over a [Math] with the mandated special values *)

Lemma Qred_zero q : (q == 0)%Q -> Qred q = 0%Q.
Proof. intros H. now rewrite (Qred_complete _ _ H). Qed.

Lemma is_zero_Qred q : is_zero (Qred q) = is_zero q.
Proof.
  unfold is_zero. apply eq_true_iff_eq.
  now rewrite !Qeq_bool_iff, Qred_correct.
Qed.

Lemma is_zero_opp q : is_zero (- q) = is_zero q.
Proof.
  unfold is_zero. apply eq_true_iff_eq. rewrite !Qeq_bool_iff.
  split; intros H; lra.
Qed.

Lemma Qlt_bool_opp_nonzero q :
  is_zero q = false -> Qlt_bool (Qred (- q)) 0 = negb (Qlt_bool q 0).
Proof.
  unfold is_zero. intros H. apply eq_true_iff_eq.
  rewrite negb_true_iff, Qlt_bool_iff, Qlt_bool_false_iff, Qred_correct.
  assert (Hq : ~ (q == 0)%Q).
  { intros E. apply Qeq_bool_iff in E. congruence. }
  split; intros H'; lra.
Qed.

Lemma num_sub_self x : num_sub (Fin x) (Fin x) = Fin 0.
Proof.
  simpl. f_equal. apply Qred_zero. rewrite Qred_correct. lra.
Qed.

Lemma num_sub_swap a b : num_sub b a = num_neg (num_sub a b).
Proof.
  destruct a as [|s|x], b as [|t|y]; simpl; try reflexivity;
    try (destruct s; reflexivity); try (destruct t; reflexivity);
    try (destruct s, t; reflexivity).
  f_equal. apply Qred_complete. rewrite !Qred_correct. lra.
Qed.

Lemma num_mul_neg_l a b : num_mul (num_neg a) b = num_neg (num_mul a b).
Proof.
  destruct a as [|s|x], b as [|t|y]; try reflexivity; simpl.
  - now destruct s, t.
  - destruct (is_zero y); [reflexivity|]. now destruct s, (Qlt_bool y 0).
  - rewrite is_zero_Qred, is_zero_opp.
    destruct (is_zero x) eqn:E; [reflexivity|].
    rewrite (Qlt_bool_opp_nonzero x E). now destruct t, (Qlt_bool x 0).
  - f_equal. apply Qred_complete. rewrite !Qred_correct. lra.
Qed.

Lemma num_mul_comm a b : num_mul a b = num_mul b a.
Proof.
  destruct a as [|s|x], b as [|t|y]; try reflexivity; simpl.
  - now destruct s, t.
  - f_equal. apply Qred_complete. lra.
Qed.

Lemma num_mul_neg_neg a b : num_mul (num_neg a) (num_neg b) = num_mul a b.
Proof.
  destruct a as [|s|x], b as [|t|y]; try reflexivity; simpl.
  - now destruct s, t.
  - rewrite is_zero_Qred, is_zero_opp.
    destruct (is_zero y) eqn:E; [reflexivity|].
    rewrite (Qlt_bool_opp_nonzero y E). now destruct s, (Qlt_bool y 0).
  - rewrite is_zero_Qred, is_zero_opp.
    destruct (is_zero x) eqn:E; [reflexivity|].
    rewrite (Qlt_bool_opp_nonzero x E). now destruct t, (Qlt_bool x 0).
  - f_equal. apply Qred_complete. rewrite !Qred_correct. lra.
Qed.

Lemma num_mul_neg_cancel u t :
  num_mul (num_mul u (num_neg t)) (num_neg t) = num_mul (num_mul u t) t.
Proof.
  now rewrite (num_mul_comm u (num_neg t)), num_mul_neg_l, num_mul_neg_neg,
    (num_mul_comm t u).
Qed.

Lemma num_div_neg_l a y :
  is_zero y = false ->
  num_div (num_neg a) (Fin y) = num_neg (num_div a (Fin y)).
Proof.
  intros Hy. destruct a as [|s|x]; simpl; try reflexivity.
  - now destruct s, (Qlt_bool y 0).
  - rewrite Hy. simpl. f_equal. apply Qred_complete. rewrite !Qred_correct.
    unfold Qdiv. lra.
Qed.

Section DistanceFacts.
Context {M : MathLib}.

(** What ECMAScript fixes of the [Math] functions at these arguments. *)
Hypothesis PI_finite : exists q, Math_PI = Fin q.
Hypothesis sin_zero : Math_sin (Fin 0) = Fin 0.
Hypothesis cos_finite : forall q, exists r, Math_cos (Fin q) = Fin r.
Hypothesis sqrt_zero : Math_sqrt (Fin 0) = Fin 0.
Hypothesis sqrt_one : Math_sqrt (Fin 1) = Fin 1.
Hypothesis atan2_zero_one : Math_atan2 (Fin 0) (Fin 1) = Fin 0.

Lemma deg2rad_finite x : exists r, deg2rad (Fin x) = Fin r.
Proof using PI_finite.
  destruct PI_finite as [q Hq]. unfold deg2rad. rewrite Hq. simpl. eauto.
Qed.

Lemma deg2rad_zero : deg2rad (Fin 0) = Fin 0.
Proof using PI_finite.
  destruct PI_finite as [q Hq]. unfold deg2rad. rewrite Hq. reflexivity.
Qed.

(** The distance from a point with finite coordinates to itself is 0. *)
Lemma getDistance_self x y :
  getDistanceFromLatLonInKm (Fin x) (Fin y) (Fin x) (Fin y) = Fin 0.
Proof using All.
  unfold getDistanceFromLatLonInKm. rewrite !num_sub_self, deg2rad_zero.
  replace (num_div (Fin 0) (Fin 2)) with (Fin 0) by reflexivity.
  rewrite sin_zero.
  destruct (deg2rad_finite x) as [r ->]. destruct (cos_finite r) as [c ->].
  replace (num_add (num_mul (Fin 0) (Fin 0))
             (num_mul (num_mul (num_mul (Fin c) (Fin c)) (Fin 0)) (Fin 0)))
    with (Fin 0).
  - replace (num_sub (Fin 1) (Fin 0)) with (Fin 1) by reflexivity.
    now rewrite sqrt_zero, sqrt_one, atan2_zero_one.
  - simpl. f_equal. symmetry. apply Qred_zero. rewrite !Qred_correct. lra.
Qed.

End DistanceFacts.

Section DistanceSymmetry.
Context {M : MathLib}.

(** An odd sine, which ECMAScript does not require. *)
Hypothesis sin_odd : forall v, Math_sin (num_neg v) = num_neg (Math_sin v).

Lemma half_deg2rad_swap a b :
  num_div (deg2rad (num_sub b a)) (Fin 2)
  = num_neg (num_div (deg2rad (num_sub a b)) (Fin 2)).
Proof.
  rewrite (num_sub_swap a b). unfold deg2rad. rewrite num_mul_neg_l.
  now apply num_div_neg_l.
Qed.

(** With an odd sine the formula gives the same value both ways. *)
Lemma getDistance_symmetric lat1 lon1 lat2 lon2 :
  getDistanceFromLatLonInKm lat1 lon1 lat2 lon2
  = getDistanceFromLatLonInKm lat2 lon2 lat1 lon1.
Proof using sin_odd.
  unfold getDistanceFromLatLonInKm.
  rewrite (half_deg2rad_swap lat2 lat1), (half_deg2rad_swap lon2 lon1).
  rewrite !sin_odd, num_mul_neg_neg, num_mul_neg_cancel.
  now rewrite (num_mul_comm (Math_cos (deg2rad lat2))).
Qed.

End DistanceSymmetry.

(** ** The distance formula on doubles *)

Section Binary64Facts.
Import PrimFloat.
Set Warnings "-inexact-float".

(** The result is [R * c]: NaN as soon as [Math.sqrt (1 - a)] is. *)
Lemma getDistance_from_term lat1 lon1 lat2 lon2 :
  Binary64.getDistanceFromLatLonInKm lat1 lon1 lat2 lon2
  = (6371 * (2 * Binary64.Math_atan2
                   (Binary64.Math_sqrt (Binary64.haversine_term lat1 lon1 lat2 lon2))
                   (Binary64.Math_sqrt (1 - Binary64.haversine_term lat1 lon1 lat2 lon2))))%float.
Proof. reflexivity. Qed.

(** The model gives the values the page computes: one degree of longitude
    on the equator, a point and itself, and a pair both ways. *)
Example getDistance_samples :
  Binary64.getDistanceFromLatLonInKm 0 0 0 1 = 111.19492664455873%float
  /\ Binary64.getDistanceFromLatLonInKm 22.63 120.3 22.63 120.3 = 0%float
  /\ Binary64.getDistanceFromLatLonInKm 25.03 121.56 22.63 120.3
     = Binary64.getDistanceFromLatLonInKm 22.63 120.3 25.03 121.56.
Proof. vm_compute. repeat split. Qed.

(** C6 (the distance is a non-negative number of kilometres for every pair
    of valid coordinates): not so near the antipode.  From (8 N, 0 E) to
    (8 S, 180 E) the rounded haversine term [a] is the double just above 1,
    [1 - a] is negative, [Math.sqrt (1 - a)] is NaN and so is the distance:
    it is not [>= 0].  The same happens at latitudes 12 and 82.  The formula
    lacks the clamp of [a] to 1. *)
Theorem getDistance_near_antipode_nan :
  Binary64.haversine_term 8 0 (-8) 180 = 0x1.0000000000001p+0%float
  /\ is_nan (Binary64.Math_sqrt (1 - Binary64.haversine_term 8 0 (-8) 180)) = true
  /\ is_nan (Binary64.getDistanceFromLatLonInKm 8 0 (-8) 180) = true
  /\ (0 <=? Binary64.getDistanceFromLatLonInKm 8 0 (-8) 180)%float = false
  /\ is_nan (Binary64.getDistanceFromLatLonInKm 12 0 (-12) 180) = true
  /\ is_nan (Binary64.getDistanceFromLatLonInKm 82 0 (-82) 180) = true.
Proof. vm_compute. repeat split. Qed.

End Binary64Facts.

(** ** Where a NaN distance comes from *)

Section NaNDistance.
Context {M : MathLib}.

(** ECMAScript: each of these answers NaN on a NaN argument. *)
Hypothesis sin_nan : Math_sin NaN = NaN.
Hypothesis sqrt_nan : Math_sqrt NaN = NaN.
Hypothesis atan2_nan : forall x, Math_atan2 NaN x = NaN.

Lemma getDistance_nan lat1 lon1 lon2 :
  getDistanceFromLatLonInKm lat1 lon1 NaN lon2 = NaN.
Proof using All.
  unfold getDistanceFromLatLonInKm, deg2rad. simpl.
  rewrite sin_nan. simpl. now rewrite sqrt_nan, atan2_nan.
Qed.

(** A place whose POINT text has tokens that are no numerals gets, once
    the user coordinate is known, the distance NaN: a number, yet not one
    the sort can order. *)
Lemma annotate_nan_distance u p :
  loc p = LText "POINT(abc def)" ->
  distance (annotate (Some u) p) = Some NaN
  /\ comparable (annotate (Some u) p) = false.
Proof using All.
  intros Hl. unfold comparable, annotate. rewrite Hl. simpl.
  now rewrite getDistance_nan.
Qed.

End NaNDistance.

(** * Further properties of the page *)

(** ** The pipeline as a whole *)

Lemma tags_include_spec p tag : tags_include p tag = true <-> has_tag p tag.
Proof.
  unfold tags_include, has_tag. destruct (metadata_tags p) as [ts|].
  - rewrite existsb_eqb_In. split.
    + intros H. now exists ts.
    + now intros (ts' & [= <-] & H).
  - split; [discriminate|]. now intros (ts & H & _).
Qed.

Lemma nonempty_false s : nonempty s = false <-> s = "".
Proof. destruct s; simpl; split; congruence. Qed.

Lemma categoryStep_In c l p :
  In p (categoryStep c l) <-> In p l /\ (c = "all" \/ category p = c).
Proof.
  unfold categoryStep. destruct (String.eqb_spec c "all") as [->|Hne]; simpl.
  - tauto.
  - rewrite filter_In, String.eqb_eq. tauto.
Qed.

Lemma searchStep_In term l p :
  In p (searchStep term l) <-> In p l /\ (term = "" \/ matches_search p term).
Proof.
  unfold searchStep. destruct (nonempty term) eqn:E.
  - rewrite filter_In, search_predicate_spec.
    assert (term <> "") by (intros ->; discriminate). tauto.
  - apply nonempty_false in E. tauto.
Qed.

Lemma tagStep_In tag l p :
  In p (tagStep tag l) <-> In p l /\ (tag = "" \/ has_tag p tag).
Proof.
  unfold tagStep. destruct (nonempty tag) eqn:E.
  - rewrite filter_In, tags_include_spec.
    assert (tag <> "") by (intros ->; discriminate). tauto.
  - apply nonempty_false in E. tauto.
Qed.

Lemma sortStep_In (E : SortEngine) l p :
  conforms E -> (In p (sortStep l) <-> In p l).
Proof.
  intros HE. pose proof (proj1 (HE _ byDistance l)) as H.
  split; apply Permutation_in.
  - exact H.
  - now symmetry.
Qed.

Lemma filter_length_le {A} (f : A -> bool) l :
  (List.length (List.filter f l) <= List.length l)%nat.
Proof.
  induction l as [|x l IH]; simpl; [lia|]. destruct (f x); simpl; lia.
Qed.

Lemma processedPlaces_In (E : SortEngine) (M : MathLib)
    places cat term tag u p :
  conforms E ->
  In p (processedPlaces places cat term tag u)
  <-> exists q,
        In q places /\ p = annotate u q
        /\ (cat = "all" \/ category q = cat)
        /\ (term = "" \/ matches_search q term)
        /\ (tag = "" \/ has_tag q tag).
Proof.
  intros HE. unfold processedPlaces.
  rewrite (sortStep_In E _ _ HE), tagStep_In, searchStep_In, categoryStep_In,
    in_map_iff.
  split.
  - intros ((((q & <- & Hq) & Hc) & Hs) & Ht). exists q. tauto.
  - intros (q & Hq & -> & Hc & Hs & Ht).
    repeat split; try assumption. now exists q.
Qed.

(** X1.  On an engine that sorts as ECMAScript requires, a place is in
    the processed list exactly when it is the annotation of a fetched place
    that passes the three filters: of the active category (unless that is
    "all"), matching the search term (unless empty), carrying the active
    tag (unless empty).  The annotation changes no field but the distance,
    and the processed list is never longer than the fetched one. *)
Theorem processedPlaces_characterised (E : SortEngine) (M : MathLib)
    (places : list Place) (cat term tag : string) (u : option LatLng) :
  conforms E ->
  (forall p,
      In p (processedPlaces places cat term tag u)
      <-> exists q,
            In q places /\ p = annotate u q
            /\ (cat = "all" \/ category q = cat)
            /\ (term = "" \/ matches_search q term)
            /\ (tag = "" \/ has_tag q tag))
  /\ (forall q,
         with_distance (annotate u q) (distance q) = q
         /\ id (annotate u q) = id q /\ name (annotate u q) = name q
         /\ category (annotate u q) = category q
         /\ metadata (annotate u q) = metadata q
         /\ google_url (annotate u q) = google_url q
         /\ address (annotate u q) = address q)
  /\ (List.length (processedPlaces places cat term tag u)
      <= List.length places)%nat.
Proof.
  intros HE. split; [intros p; now apply processedPlaces_In|].
  split; [intros q; now destruct q|].
  unfold processedPlaces, sortStep.
  rewrite (Permutation_length (proj1 (HE _ byDistance _))).
  rewrite <- (length_map (annotate u) places).
  unfold tagStep, searchStep, categoryStep.
  repeat match goal with
         | |- context [if ?c then _ else _] => destruct c
         end;
    repeat (etransitivity; [apply filter_length_le|]); lia.
Qed.









(** X3.  A tag offered as a chip always leads somewhere: with no search
    term, picking any tag of the vocabulary of the active category leaves
    at least one place in the processed list (on an engine that sorts as
    ECMAScript requires). *)
Theorem offered_tag_finds_a_place (E : SortEngine) (M : MathLib)
    (places : list Place) (cat tag : string) (u : option LatLng) :
  conforms E ->
  In tag (availableTags places cat) ->
  processedPlaces places cat "" tag u <> [].
Proof.
  intros HE Hin. rewrite availableTags_refines in Hin.
  unfold availableTags_spec in Hin.
  assert (Ht : In tag (category_tags places cat)).
  { apply first_seen_In. rewrite <- (firstn_skipn 15). apply in_or_app. now left. }
  apply category_tags_In in Ht. destruct Ht as (q & ts & Hq & Hc & Hts & Htag).
  assert (H : In (annotate u q) (processedPlaces places cat "" tag u)).
  { apply processedPlaces_In; [exact HE|]. exists q. repeat split; auto.
    right. now exists ts. }
  intros Hnil. rewrite Hnil in H. contradiction.
Qed.

Lemma offered_tag_finds_a_place_witness :
  processedPlaces (E := reference_engine) (M := seriesMath)
    eighteen_tags "food" "" "o" None <> [].
Proof.
  apply offered_tag_finds_a_place; [exact reference_engine_conforms|].
  vm_compute. tauto.
Defined.

Lemma processedPlaces_characterised_witness :
  (List.length (processedPlaces (E := reference_engine) (M := seriesMath)
                  eighteen_tags "food" "" "o" None)
   <= List.length eighteen_tags)%nat.
Proof.
  destruct (processedPlaces_characterised reference_engine seriesMath
              eighteen_tags "food" "" "o" None reference_engine_conforms)
    as (_ & _ & H).
  exact H.
Defined.

(** ** More on the distance sort *)

(** X4.  Where the comparator is consistent, sorting the output of the
    sort step once more changes nothing (on an engine that sorts as
    ECMAScript requires). *)
Theorem sortStep_idempotent (E : SortEngine) (result : list Place) :
  conforms E ->
  consistent byDistance result ->
  sortStep (sortStep result) = sortStep result.
Proof.
  intros HE Hc.
  assert (Hc' : consistent byDistance (sortStep result)).
  { apply (consistent_perm byDistance result); [|exact Hc].
    symmetry. exact (proj1 (HE _ byDistance result)). }
  unfold sortStep in *.
  rewrite (conforms_stable_sort E HE _ byDistance _ Hc'),
    (conforms_stable_sort E HE _ byDistance _ Hc).
  apply stable_sort_sorted_id. apply stable_sort_sorted.
  exact byDistance_antisym.
Qed.

Lemma sortStep_idempotent_witness :
  sortStep (E := reference_engine)
    (sortStep (E := reference_engine) [place_far; place_mid; place_near])
  = sortStep (E := reference_engine) [place_far; place_mid; place_near].
Proof.
  apply sortStep_idempotent; [exact reference_engine_conforms|].
  apply consistent_finite. repeat constructor.
Defined.

(** ** The states the page can be in *)

Section ScreenFacts.
Context {engine : SortEngine} {M : MathLib}.

Lemma reachable_page_pos s : reachable s -> (1 <= page s)%nat.
Proof.
  induction 1 as [|s e _ IH _]; [simpl; lia|].
  destruct e; simpl; try exact IH; try lia.
  destruct (negb (nonempty (searchTerm s))); exact IH.
Qed.

Lemma reachable_category s : reachable s -> In (activeCategory s) CATEGORIES.
Proof.
  induction 1 as [|s e _ IH En]; [simpl; tauto|].
  destruct e; simpl; try exact IH.
  - change (In cat_id CATEGORIES). apply existsb_eqb_In. exact En.
  - destruct (negb (nonempty (searchTerm s))); exact IH.
Qed.

Lemma visiblePlaces_nil processed page :
  (1 <= page)%nat -> (visiblePlaces processed page = [] <-> processed = []).
Proof.
  intros Hp. unfold visiblePlaces, PAGE_SIZE. split; [|now intros ->; destruct (page * 30)%nat].
  destruct processed as [|p l]; [reflexivity|].
  destruct (page * 30)%nat eqn:E; [lia|discriminate].
Qed.

(** X5.  In every state the page can reach the page number is at least 1,
    and once loading is over the "nothing found" notice is shown exactly
    when no place passes the filters. *)
Theorem reachable_page_and_notice (s : State) :
  reachable s ->
  (1 <= page s)%nat
  /\ (loading s = false ->
      (showEmptyState s = true <-> processedOf s = [])).
Proof.
  intros Hr. pose proof (reachable_page_pos s Hr) as Hp.
  split; [exact Hp|]. intros Hl. unfold showEmptyState, visibleOf.
  rewrite Hl. simpl. rewrite Nat.eqb_eq, length_zero_iff_nil.
  now apply visiblePlaces_nil.
Qed.

(** X6.  In every state the page can reach the active category is one of
    the four tabs, never "all": exactly one tab is marked active, and
    every place of the processed list is of the active category (on an
    engine that sorts as ECMAScript requires). *)
Theorem reachable_category_filter (s : State) :
  conforms engine ->
  reachable s ->
  In (activeCategory s) CATEGORIES
  /\ activeCategory s <> "all"
  /\ List.filter (tabActive s) CATEGORIES = [activeCategory s]
  /\ (forall p, In p (processedOf s) -> category p = activeCategory s).
Proof.
  intros HE Hr. pose proof (reachable_category s Hr) as Hc.
  assert (Hne : activeCategory s <> "all").
  { intros E. rewrite E in Hc. simpl in Hc. intuition discriminate. }
  split; [exact Hc|]. split; [exact Hne|]. split.
  - unfold tabActive. simpl in Hc.
    destruct Hc as [<-|[<-|[<-|[<-|[]]]]]; reflexivity.
  - intros p Hp. unfold processedOf in Hp.
    apply processedPlaces_In in Hp; [|exact HE].
    destruct Hp as (q & _ & -> & [E|E] & _); [contradiction|exact E].
Qed.

End ScreenFacts.

Lemma run_reachable (E : SortEngine) (M : MathLib) es s :
  reachable s -> enabled_all es s = true -> reachable (run es s).
Proof.
  revert s. induction es as [|e es IH]; intros s Hr He; [exact Hr|].
  simpl in He. apply andb_true_iff in He. destruct He as [He Hes].
  apply (IH (handle e s)); [|exact Hes]. now apply reachable_step.
Qed.

Lemma sample_state_reachable :
  reachable (E := reference_engine) (M := seriesMath) sample_state.
Proof.
  apply run_reachable; [apply reachable_init|]. vm_compute. reflexivity.
Qed.

Lemma reachable_page_and_notice_witness :
  (1 <= page sample_state)%nat
  /\ (loading sample_state = false ->
      (showEmptyState (E := reference_engine) (M := seriesMath) sample_state
       = true
       <-> processedOf (E := reference_engine) (M := seriesMath) sample_state
           = [])).
Proof.
  apply reachable_page_and_notice. exact sample_state_reachable.
Defined.

Lemma reachable_category_filter_witness :
  List.filter (tabActive sample_state) CATEGORIES = ["dive"].
Proof.
  destruct (reachable_category_filter (engine := reference_engine)
              (M := seriesMath) sample_state reference_engine_conforms
              sample_state_reachable) as (_ & _ & H & _).
  exact H.
Defined.

(** ** More on pagination *)

Lemma firstn_add {A} (a b : nat) (l : list A) :
  firstn (a + b) l = firstn a l ++ firstn b (skipn a l).
Proof.
  revert l. induction a as [|a IH]; intros l; [reflexivity|].
  destruct l as [|x l]; simpl; [now rewrite firstn_nil|]. now rewrite IH.
Qed.

(** X7.  "Load more" keeps what is shown and appends the next entries of
    the same processed list, at most [PAGE_SIZE] of them; when the control
    is not offered, everything is already shown. *)
Theorem load_more_appends (engine : SortEngine) (M : MathLib) (s : State) :
  processedOf (handle ClickLoadMore s) = processedOf s
  /\ visibleOf (handle ClickLoadMore s)
     = visibleOf s
       ++ firstn PAGE_SIZE (skipn (page s * PAGE_SIZE) (processedOf s))
  /\ (List.length (visibleOf (handle ClickLoadMore s))
      <= List.length (visibleOf s) + PAGE_SIZE)%nat
  /\ (showLoadMore (processedOf s) (page s) = false ->
      visibleOf s = processedOf s).
Proof.
  split; [reflexivity|].
  assert (E : visibleOf (handle ClickLoadMore s)
              = visibleOf s
                ++ firstn PAGE_SIZE (skipn (page s * PAGE_SIZE) (processedOf s))).
  { unfold visibleOf, visiblePlaces. simpl page.
    change (processedOf (handle ClickLoadMore s)) with (processedOf s).
    rewrite Nat.mul_add_distr_r, Nat.mul_1_l. apply firstn_add. }
  split; [exact E|]. split.
  - rewrite E, length_app, length_firstn. lia.
  - unfold showLoadMore, visibleOf. rewrite Nat.ltb_ge. intros H.
    unfold visiblePlaces in *. rewrite length_firstn in H.
    apply firstn_all2. lia.
Qed.

Lemma load_more_appends_witness :
  visibleOf (E := reference_engine) (M := seriesMath) sample_state
  = processedOf (E := reference_engine) (M := seriesMath) sample_state.
Proof.
  destruct (load_more_appends reference_engine seriesMath sample_state)
    as (_ & _ & _ & H).
  apply H. reflexivity.
Defined.

(** ** The map link *)

Lemma string_forallb_app f a b :
  string_forallb f (a ++ b) = string_forallb f a && string_forallb f b.
Proof.
  induction a as [|c a IH]; [reflexivity|].
  rewrite sapp_cons. simpl. now rewrite IH, andb_assoc.
Qed.








(** ** The address text *)

Lemma slength_app a b :
  String.length (a ++ b) = (String.length a + String.length b)%nat.
Proof.
  induction a as [|c a IH]; [reflexivity|]. rewrite sapp_cons. simpl.
  now rewrite IH.
Qed.

Lemma substring0_length n s :
  String.length (String.substring 0 n s) = Nat.min n (String.length s).
Proof.
  revert s. induction n as [|n IH]; intros s; [now destruct s|].
  destruct s as [|c s]; simpl; [reflexivity|]. now rewrite IH.
Qed.

Lemma substring0_all n s :
  (String.length s <= n)%nat -> String.substring 0 n s = s.
Proof.
  revert s. induction n as [|n IH]; intros s H.
  - destruct s; [reflexivity|simpl in H; lia].
  - destruct s as [|c s]; simpl; [reflexivity|]. rewrite IH; [reflexivity|].
    simpl in H. lia.
Qed.

Lemma substring0_forallb f n s :
  string_forallb f s = true -> string_forallb f (String.substring 0 n s) = true.
Proof.
  revert s. induction n as [|n IH]; intros s H; [now destruct s|].
  destruct s as [|c s]; simpl in *; [reflexivity|].
  apply andb_true_iff in H. destruct H as [-> H]. now apply IH.
Qed.

Lemma strip_tags_from_no_lt b s :
  string_forallb not_lt (strip_tags_from b s) = true.
Proof.
  revert b. induction s as [|c s IH]; intros b; [reflexivity|]. simpl.
  destruct b.
  - destruct (Ascii.eqb c ">"); apply IH.
  - destruct (Ascii.eqb c "<") eqn:E; simpl; [apply IH|].
    unfold not_lt at 1. rewrite E. apply IH.
Qed.

Lemma replace_nbsp_from_forallb f k s :
  f " "%char = true ->
  string_forallb f s = true ->
  string_forallb f (replace_nbsp_from k s) = true.
Proof.
  intros Hsp. revert k. induction s as [|c s IH]; intros k H; [reflexivity|].
  simpl in H. apply andb_true_iff in H. destruct H as [Hc H].
  cbn [replace_nbsp_from]. destruct k as [|k]; [|now apply IH].
  destruct (String.prefix "&nbsp;" (String c s)); simpl;
    rewrite ?Hsp, ?Hc; now apply IH.
Qed.

Lemma strip_tags_from_plain s :
  string_forallb plain_char s = true -> strip_tags_from false s = s.
Proof.
  induction s as [|c s IH]; [reflexivity|]. simpl. unfold plain_char at 1.
  rewrite !andb_true_iff, !negb_true_iff. intros [[-> _] H]. now rewrite IH.
Qed.

Lemma prefix_nbsp_other c s :
  Ascii.eqb c "&" = false -> String.prefix "&nbsp;" (String c s) = false.
Proof.
  intros E. apply not_true_is_false. intros H. apply prefix_spec in H.
  destruct H as [post H]. rewrite sapp_cons in H. injection H as H _.
  subst c. discriminate.
Qed.

Lemma replace_nbsp_from_plain s :
  string_forallb plain_char s = true -> replace_nbsp_from 0 s = s.
Proof.
  induction s as [|c s IH]; [reflexivity|].
  cbn [string_forallb replace_nbsp_from]. unfold plain_char at 1.
  rewrite !andb_true_iff, !negb_true_iff. intros [[_ E] H].
  now rewrite (prefix_nbsp_other c s E), IH.
Qed.

Lemma strip_tags_from_length b s :
  (String.length (strip_tags_from b s) <= String.length s)%nat.
Proof.
  revert b. induction s as [|c s IH]; intros b; [simpl; lia|]. simpl.
  destruct b.
  - destruct (Ascii.eqb c ">"); [specialize (IH false)|specialize (IH true)]; lia.
  - destruct (Ascii.eqb c "<"); simpl;
      [specialize (IH true)|specialize (IH false)]; lia.
Qed.

Lemma replace_nbsp_from_length k s :
  (String.length (replace_nbsp_from k s) <= String.length s)%nat.
Proof.
  revert k. induction s as [|c s IH]; intros k; [simpl; lia|].
  cbn [replace_nbsp_from]. destruct k as [|k].
  - destruct (String.prefix "&nbsp;" (String c s)); simpl;
      [specialize (IH 5%nat)|specialize (IH 0%nat)]; lia.
  - specialize (IH k). simpl. lia.
Qed.

Lemma cleanAddress_nonempty m d :
  original_description m = Some d -> nonempty d = true ->
  nonempty (cleanAddress (Some m)) = true.
Proof.
  intros Hd Hne. unfold cleanAddress. rewrite Hd.
  destruct d as [|c d]; [discriminate|].
  unfold strip_tags. cbn [strip_tags_from].
  destruct (Ascii.eqb c "<"); unfold replace_nbsp; cbn [replace_nbsp_from];
    match goal with
    | |- context [String.prefix ?p ?s] => destruct (String.prefix p s)
    end; reflexivity.
Qed.

(** X9.  The cleaned address text has at most 83 characters (80 and
    the ellipsis), holds no [<], is never longer than the raw text plus
    the ellipsis, and is empty when the record has no metadata or no
    original description. *)
Theorem cleanAddress_bounds (meta : option Metadata) :
  (String.length (cleanAddress meta) <= 83)%nat
  /\ string_forallb not_lt (cleanAddress meta) = true
  /\ (forall m d,
         meta = Some m -> original_description m = Some d ->
         (String.length (cleanAddress meta) <= String.length d + 3)%nat
         /\ ((String.length d <= 80)%nat ->
             cleanAddress meta = replace_nbsp (strip_tags d)))
  /\ (meta = None -> cleanAddress meta = "")
  /\ (forall m, meta = Some m -> original_description m = None ->
                cleanAddress meta = "").
Proof.
  unfold cleanAddress.
  set (raw := match meta with
              | Some m => match original_description m with
                          | Some d => d
                          | None => ""
                          end
              | None => ""
              end).
  set (clean := replace_nbsp (strip_tags raw)).
  assert (Hlen : (String.length clean <= String.length raw)%nat).
  { subst clean. unfold replace_nbsp, strip_tags.
    etransitivity; [apply replace_nbsp_from_length|apply strip_tags_from_length]. }
  split; [|split; [|split; [|split]]].
  - rewrite slength_app, substring0_length.
    destruct (80 <? String.length clean)%nat;
      [change (String.length "...") with 3%nat
      |change (String.length "") with 0%nat]; lia.
  - rewrite string_forallb_app. apply andb_true_iff. split.
    + apply substring0_forallb. subst clean. unfold replace_nbsp.
      apply replace_nbsp_from_forallb; [reflexivity|].
      apply strip_tags_from_no_lt.
    + now destruct (80 <? String.length clean)%nat.
  - intros m d -> Hd. subst clean raw. cbv beta iota in *. rewrite Hd in *.
    set (clean := replace_nbsp (strip_tags d)) in *. split.
    + rewrite slength_app, substring0_length.
      destruct (80 <? String.length clean)%nat;
      [change (String.length "...") with 3%nat
      |change (String.length "") with 0%nat]; lia.
    + intros H80. destruct (Nat.ltb_spec 80 (String.length clean)); [lia|].
      rewrite sapp_nil_r. apply substring0_all. lia.
  - intros ->. reflexivity.
  - intros m -> Hd. subst clean raw. now rewrite Hd.
Qed.

Lemma cleanAddress_bounds_witness :
  cleanAddress (metadata place_pet_shop) = "302 Hsinchu +886 3 555".
Proof.
  destruct (cleanAddress_bounds (metadata place_pet_shop)) as (_ & _ & H & _).
  destruct (H _ _ eq_refl eq_refl) as [_ H80].
  rewrite H80; [reflexivity|simpl; lia].
Defined.

(** X10.  A raw text with no [<] and no [&] comes through unchanged
    when it has at most 80 characters, and cut to its first 80 characters
    followed by "..." when it has more. *)
Theorem cleanAddress_plain (m : Metadata) (d : string) :
  original_description m = Some d ->
  string_forallb plain_char d = true ->
  cleanAddress (Some m)
  = if (String.length d <=? 80)%nat then d
    else (String.substring 0 80 d ++ "...")%string.
Proof.
  intros Hd Hp. unfold cleanAddress, replace_nbsp, strip_tags. rewrite Hd.
  rewrite (strip_tags_from_plain d Hp), (replace_nbsp_from_plain d Hp).
  destruct (Nat.leb_spec (String.length d) 80) as [H|H].
  - destruct (Nat.ltb_spec 80 (String.length d)); [lia|].
    rewrite sapp_nil_r. now apply substring0_all.
  - destruct (Nat.ltb_spec 80 (String.length d)); [reflexivity|lia].
Qed.

Lemma cleanAddress_plain_witness :
  cleanAddress
    (Some {| tags := None; description := None;
             original_description := Some "12 Harbour Rd, Kaohsiung" |})
  = "12 Harbour Rd, Kaohsiung".
Proof.
  apply (cleanAddress_plain _ "12 Harbour Rd, Kaohsiung"); reflexivity.
Defined.

(** X11.  When a card has an address row its text is never empty: it is
    the address column when that is non-empty, and otherwise the cleaned
    original description of a pet place. *)
Theorem addressRow_nonempty (place : Place) (t : string) :
  addressRow place = Some t ->
  nonempty t = true
  /\ (forall a, address place = Some a -> nonempty a = true -> t = a)
  /\ (truthy_text (address place) = false ->
      category place = "pet" /\ t = cleanAddress (metadata place)).
Proof.
  unfold addressRow, truthy_text, metadata_original_description.
  destruct (address place) as [a|] eqn:Ea.
  - destruct (nonempty a) eqn:Na; simpl.
    + intros [= <-]. split; [exact Na|]. split.
      * now intros a' [= <-] _.
      * discriminate.
    + destruct (metadata place) as [m|]; [|discriminate].
      destruct (original_description m) as [d|] eqn:Ed; [|discriminate].
      destruct (nonempty d) eqn:Nd; [|discriminate].
      destruct (String.eqb_spec (category place) "pet") as [Hc|]; [|discriminate].
      simpl. intros [= <-]. split; [now apply (cleanAddress_nonempty m d)|].
      split.
      * intros a' [= <-]. congruence.
      * intros _. now split.
  - simpl. destruct (metadata place) as [m|]; [|discriminate].
    destruct (original_description m) as [d|] eqn:Ed; [|discriminate].
    destruct (nonempty d) eqn:Nd; [|discriminate].
    destruct (String.eqb_spec (category place) "pet") as [Hc|]; [|discriminate].
    simpl. intros [= <-]. split; [now apply (cleanAddress_nonempty m d)|].
    split.
    + discriminate.
    + intros _. now split.
Qed.

Lemma addressRow_nonempty_witness :
  addressRow place_pet_shop = Some "302 Hsinchu +886 3 555"
  /\ nonempty "302 Hsinchu +886 3 555" = true.
Proof.
  assert (E : addressRow place_pet_shop = Some "302 Hsinchu +886 3 555")
    by (vm_compute; reflexivity).
  split; [exact E|].
  now destruct (addressRow_nonempty place_pet_shop _ E) as [H _].
Defined.


(** ** The tags of a card on the earlier page *)

Lemma getTags_other_arrays (place : Legacy.PlaceObj)
    (h : gmap nat (list string)) (r : nat) (v : list string) :
  h !! r = Some v ->
  Legacy.obj_tags place <> Some r ->
  snd (Legacy.getTags place h) !! r = Some v.
Proof.
  intros Hr Hne.
  unfold Legacy.getTags, mbind, Legacy.Heap_bind, mret, Legacy.Heap_ret,
    Legacy.alloc, Legacy.unshift, Legacy.slice0.
  destruct (Legacy.obj_tags place) as [r0|].
  - assert (r0 <> r) by congruence.
    destruct (Legacy.obj_subcategory place) as [sub|]; simpl; [|exact Hr].
    destruct (nonempty sub); simpl; [|exact Hr].
    now rewrite lookup_alter_ne.
  - assert (Hf : fresh (dom h) <> r).
    { intros E. apply (is_fresh (dom h)). rewrite E. apply elem_of_dom. eauto. }
    destruct (Legacy.obj_subcategory place) as [sub|]; simpl.
    + destruct (nonempty sub); simpl.
      * rewrite lookup_alter_ne by exact Hf. now rewrite lookup_insert_ne.
      * now rewrite lookup_insert_ne.
    + now rewrite lookup_insert_ne.
Qed.

Lemma getTags_no_subcategory (place : Legacy.PlaceObj)
    (h : gmap nat (list string)) (r : nat) (v : list string) :
  truthy_text (Legacy.obj_subcategory place) = false ->
  h !! r = Some v ->
  snd (Legacy.getTags place h) !! r = Some v.
Proof.
  intros Hs Hr.
  unfold Legacy.getTags, mbind, Legacy.Heap_bind, mret, Legacy.Heap_ret,
    Legacy.alloc, Legacy.unshift, Legacy.slice0, truthy_text in *.
  assert (Hf : fresh (dom h) <> r).
  { intros E. apply (is_fresh (dom h)). rewrite E. apply elem_of_dom. eauto. }
  destruct (Legacy.obj_tags place) as [r0|];
    destruct (Legacy.obj_subcategory place) as [sub|]; simpl;
    rewrite ?Hs; simpl; rewrite ?lookup_insert_ne by exact Hf; exact Hr.
Qed.

(** X12.  [getTags] shows at most three tags and writes to no array but
    the tags array of the record it is given: every other array of the
    heap is as before, and when the record has no (non-empty) subcategory
    every array is. *)
Theorem getTags_frame (place : Legacy.PlaceObj) (h : gmap nat (list string)) :
  (List.length (fst (Legacy.getTags place h)) <= 3)%nat
  /\ (forall r v,
         h !! r = Some v -> Legacy.obj_tags place <> Some r ->
         snd (Legacy.getTags place h) !! r = Some v)
  /\ (truthy_text (Legacy.obj_subcategory place) = false ->
      forall r v, h !! r = Some v ->
                  snd (Legacy.getTags place h) !! r = Some v).
Proof.
  split; [|split].
  - unfold Legacy.getTags, mbind, Legacy.Heap_bind, Legacy.slice0.
    destruct (match Legacy.obj_tags place with
              | Some r => mret r
              | None => Legacy.alloc []
              end h) as [r0 h1].
    destruct (match Legacy.obj_subcategory place with
              | Some sub =>
                  if nonempty sub then Legacy.unshift r0 sub else mret ()
              | None => mret ()
              end h1) as [u h2].
    simpl. rewrite length_firstn. lia.
  - intros r v. apply getTags_other_arrays.
  - intros Hs r v. now apply getTags_no_subcategory.
Qed.

Lemma getTags_frame_witness :
  snd (Legacy.getTags obj0 (<[7%nat := ["reef"]]> heap0)) !! 7%nat
  = Some ["reef"].
Proof.
  destruct (getTags_frame obj0 (<[7%nat := ["reef"]]> heap0)) as (_ & H & _).
  apply H; [reflexivity|discriminate].
Defined.

(** X13.  On the earlier page every rendering of a card whose record has
    a subcategory and a tags array puts the subcategory once more in front
    of that array: after [n] renderings it starts with [n] copies, and from
    the third rendering on the card shows the subcategory three times and
    no tag of the record. *)
Theorem getTags_accumulates (place : Legacy.PlaceObj) (r : nat) (sub : string)
    (ts : list string) (h : gmap nat (list string)) (n : nat) :
  Legacy.obj_tags place = Some r ->
  Legacy.obj_subcategory place = Some sub ->
  nonempty sub = true ->
  h !! r = Some ts ->
  Legacy.tags_of place (render_times n place h) = Some (repeat sub n ++ ts)
  /\ ((2 <= n)%nat ->
      fst (Legacy.getTags place (render_times n place h)) = [sub; sub; sub]).
Proof.
  intros Hr Hs Hne.
  assert (Hmain : forall k ts' (h' : gmap nat (list string)),
             h' !! r = Some ts' ->
             render_times k place h' !! r = Some (repeat sub k ++ ts')).
  { induction k as [|k IH]; intros ts' h' Hts; simpl; [exact Hts|].
    destruct (getTags_unshifts place r sub ts' h' Hr Hs Hne Hts) as [H1 _].
    unfold Legacy.tags_of in H1. rewrite Hr in H1.
    rewrite (IH _ _ H1).
    change (sub :: ts') with ([sub] ++ ts').
    now rewrite app_assoc, <- repeat_cons. }
  intros Hts. split.
  - unfold Legacy.tags_of. rewrite Hr. now apply Hmain.
  - intros Hn.
    destruct (getTags_unshifts place r sub _ _ Hr Hs Hne (Hmain n ts h Hts))
      as [_ ->].
    destruct n as [|[|n]]; [lia|lia|reflexivity].
Qed.

Lemma getTags_accumulates_witness :
  Legacy.tags_of obj0 (render_times 3 obj0 heap0)
  = Some ["cafe"; "cafe"; "cafe"; "beach"; "sunset"].
Proof.
  destruct (getTags_accumulates obj0 0%nat "cafe" ["beach"; "sunset"] heap0 3
              eq_refl eq_refl eq_refl eq_refl) as [H _].
  exact H.
Defined.
